(** * tap-s3-csv: the sync layer ([tap_s3_csv/sync.py])

    A shallow embedding of the three functions of [sync.py]
    ([set_empty_values_null], [sync_table_file], [sync_stream]) and the
    properties the specification states about them.

    Python values are an inductive type, exceptions are a sum type, and the
    effectful functions run in a small state-error-trace monad whose store
    holds the singer state mapping and the open byte streams. The functions of
    other modules ([tap_s3_csv.s3], [singer], [singer_encodings], [dateutil])
    are the fields of a class of collaborators. *)

From Stdlib Require Import ZArith String Ascii DecimalString Sorted Permutation.
From stdpp Require Import base option list strings gmap sorting.

Local Open Scope string_scope.
Local Open Scope Z_scope.

Set Warnings "-register-all".

(** ** Exceptions and results *)

(** The exceptions the code can raise or let through. [KeyError], [TypeError]
    and [IndexError] come from Python's own operations; the others are the
    failures of the collaborators. *)
Inductive exn : Type :=
| KeyError (key : string)
| TypeError (msg : string)
| IndexError (msg : string)
| ValueError (msg : string)
| StorageError (msg : string)
| CsvError (msg : string)
| SchemaError (msg : string).

Inductive result (A : Type) : Type :=
| Ok (a : A)
| Raise (e : exn).
Arguments Ok {A} a.
Arguments Raise {A} e.

Module Result.
Definition bind {A B : Type} (r : result A) (k : A → result B) : result B :=
  match r with
  | Ok a => k a
  | Raise e => Raise e
  end.

Definition is_ok {A : Type} (r : result A) : bool :=
  match r with Ok _ => true | Raise _ => false end.

(** [d[key]] on a struct-like dict whose entry may be missing. *)
Definition getitem {A : Type} (key : string) (entry : option A) : result A :=
  match entry with
  | Some a => Ok a
  | None => Raise (KeyError key)
  end.
End Result.

(** [result] is a monad in stdpp's sense: [x ← r; k] runs [k] on the value of
    [r] and propagates an exception. *)
#[global] Instance result_ret : MRet result := λ A a, Ok a.
#[global] Instance result_bind : MBind result := λ A B k r, Result.bind r k.
#[global] Instance result_fmap : FMap result :=
  λ A B f r, Result.bind r (λ a, Ok (f a)).

(** ** Python values *)

(** The values a row or a config entry is built from. A dict is an
    association list in insertion order, with string keys (the field names of
    a row); a well-formed dict has no repeated key ([wf_value]). Strings are
    sequences of code points below 256. *)
Inductive value : Type :=
  | VNone
  | VBool (b : bool)
  | VInt (n : Z)
  | VStr (s : string)
  | VList (items : list value)
  | VTuple (items : list value)
  | VDict (entries : list (string * value)).

(** Induction on values, with the hypothesis available for every element of a
    container. *)
Section ValueInd.
Variable P : value → Prop.
Hypothesis HNone : P VNone.
Hypothesis HBool : ∀ b, P (VBool b).
Hypothesis HInt : ∀ n, P (VInt n).
Hypothesis HStr : ∀ s, P (VStr s).
Hypothesis HList : ∀ items, Forall P items → P (VList items).
Hypothesis HTuple : ∀ items, Forall P items → P (VTuple items).
Hypothesis HDict : ∀ entries, Forall (λ kv, P kv.2) entries → P (VDict entries).

Fixpoint value_ind_nested (v : value) : P v :=
  let fix all (l : list value) : Forall P l :=
    match l with
    | [] => @List.Forall_nil _ P
    | x :: l' => @List.Forall_cons _ P x l' (value_ind_nested x) (all l')
    end in
  let fix all_entries (l : list (string * value)) : Forall (λ kv, P kv.2) l :=
    match l with
    | [] => @List.Forall_nil _ (λ kv, P kv.2)
    | kv :: l' =>
        @List.Forall_cons _ (λ kv, P kv.2) kv l' (value_ind_nested kv.2) (all_entries l')
    end in
  match v with
  | VNone => HNone
  | VBool b => HBool b
  | VInt n => HInt n
  | VStr s => HStr s
  | VList items => HList items (all items)
  | VTuple items => HTuple items (all items)
  | VDict entries => HDict entries (all_entries entries)
  end.
End ValueInd.

(** Python's truth value testing ([bool(v)]). *)
Definition truthy (v : value) : bool :=
  match v with
  | VNone => false
  | VBool b => b
  | VInt n => negb (n =? 0)
  | VStr s => negb (String.eqb s "")
  | VList items | VTuple items => negb (Nat.eqb (length items) 0)
  | VDict entries => negb (Nat.eqb (length entries) 0)
  end.

(** ** Strings: [str.isspace], [repr] and [str] *)

Module PyStr.
(** The code points below 256 that [str.isspace] counts as whitespace:
    TAB, LF, VT, FF, CR, the separators FS, GS, RS, US, the space, NEL and
    the no-break space. *)
Definition is_whitespace (c : ascii) : bool :=
  let n := nat_of_ascii c in
  ((9 <=? n) && (n <=? 13) || (28 <=? n) && (n <=? 32) || (n =? 133) || (n =? 160))%nat.

Fixpoint all_whitespace (s : string) : bool :=
  match s with
  | EmptyString => true
  | String c s' => is_whitespace c && all_whitespace s'
  end.

(** [s.isspace()]: at least one character, and all of them whitespace. *)
Definition isspace (s : string) : bool :=
  match s with
  | EmptyString => false
  | String _ _ => all_whitespace s
  end.

Fixpoint contains (c : ascii) (s : string) : bool :=
  match s with
  | EmptyString => false
  | String c' s' => Ascii.eqb c c' || contains c s'
  end.

Definition squote : ascii := ascii_of_nat 39.
Definition dquote : ascii := ascii_of_nat 34.
Definition backslash : ascii := ascii_of_nat 92.

Definition hex_digit (n : nat) : ascii :=
  ascii_of_nat (if (n <? 10)%nat then 48 + n else 87 + n)%nat.

(** [str.isprintable] on one code point below 256. *)
Definition is_printable (c : ascii) : bool :=
  let n := nat_of_ascii c in
  ((32 <=? n) && (n <? 127) || (161 <=? n) && negb (n =? 173))%nat.

Definition escape (quote c : ascii) : string :=
  let n := nat_of_ascii c in
  if Ascii.eqb c quote || Ascii.eqb c backslash then String backslash (String c "")
  else if (n =? 9)%nat then String backslash "t"
  else if (n =? 10)%nat then String backslash "n"
  else if (n =? 13)%nat then String backslash "r"
  else if is_printable c then String c ""
  else String backslash (String "x"%char
         (String (hex_digit (n / 16)) (String (hex_digit (n mod 16)) ""))).

Fixpoint escape_all (quote : ascii) (s : string) : string :=
  match s with
  | EmptyString => ""
  | String c s' => escape quote c ++ escape_all quote s'
  end.

(** [repr(s)] of a string: single quotes, unless the string has a single
    quote and no double quote. *)
Definition repr_str (s : string) : string :=
  let quote := if contains squote s && negb (contains dquote s)
               then dquote else squote in
  String quote (escape_all quote s ++ String quote "").

Definition str_int (n : Z) : string := NilZero.string_of_int (Z.to_int n).

Fixpoint join (sep : string) (parts : list string) : string :=
  match parts with
  | [] => ""
  | [p] => p
  | p :: rest => p ++ sep ++ join sep rest
  end.

(** [repr(v)]. *)
Fixpoint repr (v : value) : string :=
  match v with
  | VNone => "None"
  | VBool true => "True"
  | VBool false => "False"
  | VInt n => str_int n
  | VStr s => repr_str s
  | VList items => "[" ++ join ", " (map repr items) ++ "]"
  | VTuple [x] => "(" ++ repr x ++ ",)"
  | VTuple items => "(" ++ join ", " (map repr items) ++ ")"
  | VDict entries =>
      "{" ++ join ", " (map (λ kv, repr_str kv.1 ++ ": " ++ repr kv.2) entries) ++ "}"
  end.

(** [str(v)]: the string itself for a string, [repr(v)] otherwise. *)
Definition str (v : value) : string :=
  match v with
  | VStr s => s
  | _ => repr v
  end.
End PyStr.

Local Open Scope list_scope.

(** [v == ""]: only the empty string equals the empty string. *)
Definition eq_empty_str (v : value) : bool :=
  match v with
  | VStr s => String.eqb s ""
  | _ => false
  end.

(** ** The null normalizer: [set_empty_values_null] *)

(** [copy.deepcopy] on a value: an equal value that shares nothing with its
    argument. Values here are plain data, so the copy is the value itself, and
    every assignment below goes to the copy [ret], never to [input_row]. *)
Definition deepcopy (v : value) : value := v.

(** [d[k] = x] on a dict: the entry of [k] is replaced where it stands, a new
    key is added at the end. *)
Fixpoint dict_setitem (k : string) (x : value) (d : list (string * value))
  : list (string * value) :=
  match d with
  | [] => [(k, x)]
  | (k', x') :: d' =>
      if decide (k = k') then (k, x) :: d' else (k', x') :: dict_setitem k x d'
  end.

(** [l[i] = x] on a list. *)
Definition list_setitem (i : nat) (x : value) (l : list value) : result (list value) :=
  if decide (i < length l)%nat then Ok (<[i := x]> l)
  else Raise (IndexError "list assignment index out of range").

(** [t[i] = x] on a tuple: tuples are immutable. *)
Definition tuple_setitem (i : nat) (x : value) (t : list value) : result (list value) :=
  Raise (TypeError "'tuple' object does not support item assignment").

(** [for dict_key, dict_value in ret.items(): ret[dict_key] = f(dict_value)].
    [todo] is what [ret.items()] has still to yield: an entry is read before it
    is overwritten, and overwriting keeps the keys and their order. *)
Definition scrub_entries (f : value → result value)
  : list (string * value) → list (string * value) → result (list (string * value)) :=
  fix loop todo ret :=
    match todo with
    | [] => Ok ret
    | (dict_key, dict_value) :: todo' =>
        x ← f dict_value;
        loop todo' (dict_setitem dict_key x ret)
    end.

(** [for dict_key, dict_value in enumerate(ret): ret[dict_key] = f(dict_value)],
    for the item assignment [setitem] of the sequence type. *)
Definition scrub_elements (setitem : nat → value → list value → result (list value))
    (f : value → result value)
  : nat → list value → list value → result (list value) :=
  fix loop dict_key todo ret :=
    match todo with
    | [] => Ok ret
    | dict_value :: todo' =>
        x ← f dict_value;
        ret' ← setitem dict_key x ret;
        loop (S dict_key) todo' ret'
    end.

Fixpoint set_empty_values_null (input_row : value) : result value :=
  let ret := deepcopy input_row in
  ret ← match input_row with
        | VDict entries =>
            VDict <$> scrub_entries set_empty_values_null entries entries
        | _ => Ok ret
        end;
  ret ← match input_row with
        | VList items =>
            VList <$> scrub_elements list_setitem set_empty_values_null 0 items items
        | VTuple items =>
            VTuple <$> scrub_elements tuple_setitem set_empty_values_null 0 items items
        | _ => Ok ret
        end;
  if eq_empty_str input_row || PyStr.isspace (PyStr.str input_row)
  then Ok VNone
  else Ok ret.

(** *** The normalizer as the specification words it *)

(** A scalar is blank when it is the empty string or a string of whitespace
    only. *)
Definition blank (v : value) : bool :=
  match v with
  | VStr s => PyStr.all_whitespace s
  | _ => false
  end.

(** The specification's normalizer: blank scalars become null, other scalars
    stay, containers keep their type, keys and indices. *)
Fixpoint normalize (v : value) : value :=
  match v with
  | VList items => VList (map normalize items)
  | VTuple items => VTuple (map normalize items)
  | VDict entries => VDict (map (λ kv, (kv.1, normalize kv.2)) entries)
  | scalar => if blank scalar then VNone else scalar
  end.

(** A value is well formed when no dict in it repeats a key. *)
Fixpoint wf_value (v : value) : bool :=
  match v with
  | VList items | VTuple items => forallb wf_value items
  | VDict entries =>
      bool_decide (NoDup entries.*1) && forallb (λ kv, wf_value kv.2) entries
  | _ => true
  end.

(** A value is tuple free when every tuple in it is empty. *)
Fixpoint tuple_free (v : value) : bool :=
  match v with
  | VList items => forallb tuple_free items
  | VTuple items => match items with [] => true | _ :: _ => false end
  | VDict entries => forallb (λ kv, tuple_free kv.2) entries
  | _ => true
  end.

(** [map_values g d]: the dict [d] with [g] applied to every value. *)
Definition map_values (g : value → value) (entries : list (string * value))
  : list (string * value) :=
  map (λ kv, (kv.1, g kv.2)) entries.

(** The scalars that are not strings. *)
Definition non_string_scalar (v : value) : bool :=
  match v with
  | VNone | VBool _ | VInt _ => true
  | _ => false
  end.

(** ** Timestamps, files and the sorted file list *)

(** A timezone-aware timestamp: the instant in microseconds since the epoch
    and the offset of its zone in minutes. Aware timestamps compare by
    instant. *)
Record datetime : Type := { instant : Z; utcoffset : Z }.

Definition dt_ltb (a b : datetime) : bool := instant a <? instant b.
Definition dt_le (a b : datetime) : Prop := instant a ≤ instant b.
Definition dt_lt (a b : datetime) : Prop := instant a < instant b.

(** One discovered file: the dict [{"key": ..., "last_modified": ...}]. *)
Record s3_file : Type := { key : string; last_modified : datetime }.

(** [sorted(iterable, key=...)]: Python's sort is stable and compares keys
    with [<] only. [insert_sorted] puts [x] before the first element whose key
    is not below the key of [x], so [x], which came first, stays ahead of the
    elements with an equal key. *)
Fixpoint insert_sorted {A : Type} (sort_key : A → datetime) (x : A) (l : list A) : list A :=
  match l with
  | [] => [x]
  | y :: l' =>
      if dt_ltb (sort_key y) (sort_key x) then y :: insert_sorted sort_key x l'
      else x :: y :: l'
  end.

Fixpoint sorted {A : Type} (sort_key : A → datetime) (l : list A) : list A :=
  match l with
  | [] => []
  | x :: l' => insert_sorted sort_key x (sorted sort_key l')
  end.

(** Comparisons of sort keys, and the elements of a list with one key. *)
Definition key_le {A : Type} (sort_key : A → datetime) (a b : A) : Prop :=
  dt_le (sort_key a) (sort_key b).
Definition key_lt {A : Type} (sort_key : A → datetime) (a b : A) : Prop :=
  dt_lt (sort_key a) (sort_key b).
Definition with_key {A : Type} (sort_key : A → datetime) (i : Z) (l : list A) : list A :=
  List.filter (λ a, instant (sort_key a) =? i) l.

(** ** Config, table spec, stream and state *)

(** The config dict, with the entries the sync layer reads. An entry is [None]
    when the key is missing. *)
Record config : Type := {
  cfg_bucket : option string;
  cfg_table_suffix : option string;
  cfg_start_date : option string;
  cfg_set_empty_values_null : option value
}.

(** The table spec dict: its name, and the selection and parsing options that
    only the collaborators read. *)
Record table_spec : Type := {
  spec_table_name : option string;
  spec_options : list (string * value)
}.

(** The stream dict: a JSON schema and the metadata entries. *)
Record stream : Type := {
  stream_schema : option value;
  stream_metadata : option value
}.

(** The singer state: the mapping under its ["bookmarks"] key, from table name
    to bookmark name to value. A state without that key reads and updates as
    one where it is empty. *)
Abbreviation state := (gmap string (gmap string string)).

(** [singer.get_bookmark(state, tap_stream_id, key)]. *)
Definition get_bookmark (st : state) (tap_stream_id key : string) : option string :=
  bookmarks ← st !! tap_stream_id; bookmarks !! key.

(** [singer.write_bookmark(state, tap_stream_id, key, val)]. *)
Definition write_bookmark (st : state) (tap_stream_id key val : string) : state :=
  <[tap_stream_id := <[key := val]> (default ∅ (st !! tap_stream_id))]> st.

(** [a or b] for a bookmark [a] and a fallback [b] that may raise: the
    bookmark when it is true (present and not the empty string). *)
Definition bookmark_or (a : option string) (b : result string) : result string :=
  match a with
  | Some val => if negb (String.eqb val "") then Ok val else b
  | None => b
  end.

(** [table_spec["table_name"] + config.get("table_suffix", "")]. *)
Definition table_name_of (cfg : config) (ts : table_spec) : result string :=
  name ← Result.getitem "table_name" (spec_table_name ts);
  Ok (name +:+ default "" (cfg_table_suffix cfg)).

(** ** Effects: the store, the trace and the monad *)

(** What [s3.get_file_handle] returns: the open stream over a file's bytes. *)
Record file_handle : Type := { handle_path : string; raw_stream : string }.

(** What a row iterator does when it is consumed: it yields a row and goes
    on, it stops, or it raises (a malformed file). *)
Inductive row_iter : Type :=
| IterStop
| IterRow (row : value) (rest : row_iter)
| IterRaise (e : exn).

Inductive log_message : Type :=
| SyncingTable (table_name : string)
| GettingFiles (modified_since : datetime)
| SyncingFile (s3_path : string)
| WroteRecords (records_streamed : nat) (table_name : string).

(** What a run does to the outside, in order. *)
Inductive event : Type :=
| LogInfo (msg : log_message)
| ListFiles (modified_since : datetime)
| OpenFile (s3_path : string)
| WriteRecord (table_name : string) (record : value) (time_extracted : datetime)
| WriteState (st : state).

(** What a run reads and updates: the [state] dict the caller passed (singer's
    [write_bookmark] updates it in place), the byte streams that are open, the
    field size limit of the [csv] module, and how often the clock was read. *)
Record store : Type := {
  st_state : state;
  st_open : list file_handle;
  st_field_size_limit : Z;
  st_clock : nat
}.

(** A computation: from a store to its outcome, the store it leaves (also when
    it raises) and the events it emitted. *)
Definition M (A : Type) : Type := store → result A * store * list event.

#[global] Instance M_ret : MRet M := λ A a s, (Ok a, s, []).
#[global] Instance M_bind : MBind M := λ A B k m s,
  match m s with
  | (Ok a, s1, t1) => let '(r, s2, t2) := k a s1 in (r, s2, t1 ++ t2)
  | (Raise e, s1, t1) => (Raise e, s1, t1)
  end.

Definition lift {A : Type} (r : result A) : M A := λ s, (r, s, []).
Definition emit (e : event) : M unit := λ s, (Ok (), s, [e]).
Definition info (msg : log_message) : M unit := emit (LogInfo msg).
Definition get_state : M state := λ s, (Ok (st_state s), s, []).

Definition set_state (st : state) (s : store) : store :=
  {| st_state := st; st_open := st_open s;
     st_field_size_limit := st_field_size_limit s; st_clock := st_clock s |}.

(** [state = write_bookmark(state, ...)] on the caller's dict. *)
Definition do_write_bookmark (tap_stream_id key val : string) : M unit :=
  λ s, (Ok (), set_state (write_bookmark (st_state s) tap_stream_id key val) s, []).

(** [singer.write_state(state)]: the whole state goes out. *)
Definition do_write_state : M unit := λ s, (Ok (), s, [WriteState (st_state s)]).

Definition do_write_record (table_name : string) (record : value) (time_extracted : datetime)
  : M unit :=
  emit (WriteRecord table_name record time_extracted).

Definition sys_maxsize : Z := 2 ^ 63 - 1.

(** [csv.field_size_limit(limit)]. *)
Definition csv_field_size_limit (limit : Z) : M unit :=
  λ s, (Ok (), {| st_state := st_state s; st_open := st_open s;
                  st_field_size_limit := limit; st_clock := st_clock s |}, []).

(** Modelled from the spec: [s3.get_file_handle] is not among the sources; by
    its contract it returns a readable stream that the caller is responsible
    for closing, so a stream that was just returned is open from then on. *)
Definition mark_open (h : file_handle) : M file_handle :=
  λ s, (Ok h, {| st_state := st_state s; st_open := h :: st_open s;
                 st_field_size_limit := st_field_size_limit s; st_clock := st_clock s |}, []).

(** ** The collaborators *)

(** The functions of other modules that the sync layer calls, as functions of
    their arguments. *)
Class Collaborators : Type := {
  (** the result of [singer.metadata.to_map] *)
  meta_map : Type;
  (** [singer.utils.strptime_with_tz] *)
  strptime_with_tz : string → result datetime;
  (** [datetime.isoformat] *)
  isoformat : datetime → string;
  (** [singer.utils.now], at the n-th reading of the clock *)
  now : nat → datetime;
  (** [tap_s3_csv.s3.get_input_files_for_table] *)
  get_input_files_for_table : config → table_spec → datetime → result (list s3_file);
  (** [tap_s3_csv.s3.get_file_handle] *)
  get_file_handle : config → string → result file_handle;
  (** [singer_encodings.csv.get_row_iterator] *)
  get_row_iterator : string → table_spec → row_iter;
  (** [singer.metadata.to_map] *)
  to_map : value → meta_map;
  (** [singer.Transformer.transform] *)
  transform : value → value → meta_map → result value
}.

(** ** The file sync unit and the stream sync orchestrator *)

Section Sync.
Context `{Collaborators}.

(** [utils.now()]. *)
Definition utils_now : M datetime :=
  λ s, (Ok (now (st_clock s)),
        {| st_state := st_state s; st_open := st_open s;
           st_field_size_limit := st_field_size_limit s; st_clock := S (st_clock s) |},
        []).

(** [s3.get_input_files_for_table(config, table_spec, modified_since)],
    consumed whole by [sorted]. *)
Definition list_files (cfg : config) (ts : table_spec) (modified_since : datetime)
  : M (list s3_file) :=
  emit (ListFiles modified_since);;
  lift (get_input_files_for_table cfg ts modified_since).

(** [s3.get_file_handle(config, s3_path)]: the stream it returns is open. *)
Definition open_file (cfg : config) (s3_path : string) : M file_handle :=
  emit (OpenFile s3_path);;
  s3_file_handle ← lift (get_file_handle cfg s3_path);
  mark_open s3_file_handle.

(** [config.get("set_empty_values_null", False)], as a condition. *)
Definition null_flag (cfg : config) : bool :=
  truthy (default (VBool false) (cfg_set_empty_values_null cfg)).

(** The body of [for row in iterator] in [sync_table_file], and the loop. *)
Fixpoint sync_rows (cfg : config) (strm : stream) (table_name : string)
    (iterator : row_iter) (records_synced : nat) : M nat :=
  match iterator with
  | IterStop => mret records_synced
  | IterRaise e => lift (Raise e)
  | IterRow row iterator' =>
      time_extracted ← utils_now;
      row ← (if null_flag cfg then lift (set_empty_values_null row) else mret row);
      schema ← lift (Result.getitem "schema" (stream_schema strm));
      mdata ← lift (Result.getitem "metadata" (stream_metadata strm));
      to_write ← lift (transform row schema (to_map mdata));
      do_write_record table_name to_write time_extracted;;
      sync_rows cfg strm table_name iterator' (S records_synced)
  end.

Definition sync_table_file (cfg : config) (s3_path : string) (ts : table_spec)
    (strm : stream) : M nat :=
  info (SyncingFile s3_path);;
  bucket ← lift (Result.getitem "bucket" (cfg_bucket cfg));
  table_name ← lift (table_name_of cfg ts);
  s3_file_handle ← open_file cfg s3_path;
  csv_field_size_limit sys_maxsize;;
  let iterator := get_row_iterator (raw_stream s3_file_handle) ts in
  sync_rows cfg strm table_name iterator 0.

(** The body of [for s3_file in sorted(...)] in [sync_stream], and the loop. *)
Fixpoint sync_files (cfg : config) (ts : table_spec) (strm : stream)
    (table_name : string) (files : list s3_file) (records_streamed : nat) : M nat :=
  match files with
  | [] => mret records_streamed
  | s3_file :: files' =>
      n ← sync_table_file cfg (key s3_file) ts strm;
      let records_streamed := (records_streamed + n)%nat in
      do_write_bookmark table_name "modified_since" (isoformat (last_modified s3_file));;
      do_write_state;;
      sync_files cfg ts strm table_name files' records_streamed
  end.

(** [get_bookmark(state, table_name, "modified_since") or config["start_date"]],
    parsed. *)
Definition resolve_modified_since (cfg : config) (st : state) (table_name : string)
  : result datetime :=
  start ← bookmark_or (get_bookmark st table_name "modified_since")
                      (Result.getitem "start_date" (cfg_start_date cfg));
  strptime_with_tz start.

(** [sync_stream(config, state, table_spec, stream)], with the [state] dict in
    the store. *)
Definition sync_stream (cfg : config) (ts : table_spec) (strm : stream) : M nat :=
  table_name ← lift (table_name_of cfg ts);
  st ← get_state;
  modified_since ← lift (resolve_modified_since cfg st table_name);
  info (SyncingTable table_name);;
  info (GettingFiles modified_since);;
  s3_files ← list_files cfg ts modified_since;
  records_streamed ←
    sync_files cfg ts strm table_name (sorted last_modified s3_files) 0;
  info (WroteRecords records_streamed table_name);;
  mret records_streamed.

End Sync.

(** ** Reading a run *)

(** The states that went out, the files the file sync unit was invoked on and
    the records that went out, in order. *)
Definition persisted (t : list event) : list state :=
  omap (λ e, match e with WriteState st => Some st | _ => None end) t.

Definition invoked (t : list event) : list string :=
  omap (λ e, match e with LogInfo (SyncingFile s3_path) => Some s3_path | _ => None end) t.

Definition records (t : list event) : list (string * value) :=
  omap (λ e, match e with WriteRecord name record _ => Some (name, record) | _ => None end) t.

(** The events that mark progress through the files: the start of a file and
    a state going out. *)
Definition progress (t : list event) : list event :=
  omap (λ e, match e with
             | LogInfo (SyncingFile _) | WriteState _ => Some e
             | _ => None
             end) t.

(** The rows [rows], then what [ending] does. *)
Fixpoint rows_then (rows : list value) (ending : row_iter) : row_iter :=
  match rows with
  | [] => ending
  | row :: rows' => IterRow row (rows_then rows' ending)
  end.

(** The state after file [f] of table [table_name] completed, from the state
    [st] before the run: its bookmark is the modification time of [f]. *)
Definition bookmarked `{Collaborators} (st : state) (table_name : string) (f : s3_file) : state :=
  write_bookmark st table_name "modified_since" (isoformat (last_modified f)).

(** The text the watermark is parsed from: the bookmark when the state has
    one that is not empty, the start date of the config otherwise. *)
Definition watermark_text (cfg : config) (st : state) (table_name : string) : option string :=
  match get_bookmark st table_name "modified_since" with
  | Some val => if decide (val = "") then cfg_start_date cfg else Some val
  | None => cfg_start_date cfg
  end.

Section Outcomes.
Context `{Collaborators}.

(** What one row goes through before it is written. *)
Definition transform_row (cfg : config) (strm : stream) (row : value) : result value :=
  row ← (if null_flag cfg then set_empty_values_null row else Ok row);
  schema ← Result.getitem "schema" (stream_schema strm);
  mdata ← Result.getitem "metadata" (stream_metadata strm);
  transform row schema (to_map mdata).

(** The outcome of the row loop and of the file sync unit, without the
    effects. *)
Fixpoint rows_outcome (cfg : config) (strm : stream) (iterator : row_iter)
    (records_synced : nat) : result nat :=
  match iterator with
  | IterStop => Ok records_synced
  | IterRaise e => Raise e
  | IterRow row iterator' =>
      _ ← transform_row cfg strm row;
      rows_outcome cfg strm iterator' (S records_synced)
  end.

Definition file_outcome (cfg : config) (ts : table_spec) (strm : stream) (s3_path : string)
  : result nat :=
  _ ← Result.getitem "bucket" (cfg_bucket cfg);
  _ ← table_name_of cfg ts;
  s3_file_handle ← get_file_handle cfg s3_path;
  rows_outcome cfg strm (get_row_iterator (raw_stream s3_file_handle) ts) 0.

(** The exception of the first row that the transformer rejects, when the
    rows before it went through and nothing else failed first. *)
Fixpoint rows_transform_failure (cfg : config) (strm : stream) (iterator : row_iter)
  : option exn :=
  match iterator with
  | IterStop | IterRaise _ => None
  | IterRow row iterator' =>
      match (if null_flag cfg then set_empty_values_null row else Ok row),
            stream_schema strm, stream_metadata strm with
      | Ok row', Some schema, Some mdata =>
          match transform row' schema (to_map mdata) with
          | Raise e => Some e
          | Ok _ => rows_transform_failure cfg strm iterator'
          end
      | _, _, _ => None
      end
  end.

Definition transform_failure (cfg : config) (ts : table_spec) (strm : stream)
    (s3_path : string) : option exn :=
  match cfg_bucket cfg, table_name_of cfg ts, get_file_handle cfg s3_path with
  | Some _, Ok _, Ok s3_file_handle =>
      rows_transform_failure cfg strm (get_row_iterator (raw_stream s3_file_handle) ts)
  | _, _, _ => None
  end.

(** What the file sync unit leaves open: the stream it was given, if it got
    as far as asking for one. *)
Definition opened_by (cfg : config) (ts : table_spec) (s3_path : string) : list file_handle :=
  match cfg_bucket cfg, table_name_of cfg ts, get_file_handle cfg s3_path with
  | Some _, Ok _, Ok s3_file_handle => [s3_file_handle]
  | _, _, _ => []
  end.

(** The outcome of the file loop without the effects, and the files it
    completes: those before the first one that fails. *)
Fixpoint files_outcome (cfg : config) (ts : table_spec) (strm : stream)
    (files : list s3_file) (records_streamed : nat) : result nat :=
  match files with
  | [] => Ok records_streamed
  | s3_file :: files' =>
      n ← file_outcome cfg ts strm (key s3_file);
      files_outcome cfg ts strm files' (records_streamed + n)
  end.

Fixpoint completed (cfg : config) (ts : table_spec) (strm : stream)
    (files : list s3_file) : list s3_file :=
  match files with
  | [] => []
  | s3_file :: files' =>
      if Result.is_ok (file_outcome cfg ts strm (key s3_file))
      then s3_file :: completed cfg ts strm files'
      else []
  end.

(** The file that failed, if one did. *)
Fixpoint failed (cfg : config) (ts : table_spec) (strm : stream)
    (files : list s3_file) : option s3_file :=
  match files with
  | [] => None
  | s3_file :: files' =>
      if Result.is_ok (file_outcome cfg ts strm (key s3_file))
      then failed cfg ts strm files'
      else Some s3_file
  end.

(** The progress events of a run over [files] from the state [st]: for each
    completed file its start and the state with its bookmark, and the start of
    the file that failed. *)
Definition file_progress (cfg : config) (ts : table_spec) (strm : stream)
    (st : state) (table_name : string) (files : list s3_file) : list event :=
  flat_map (λ f, [LogInfo (SyncingFile (key f)); WriteState (bookmarked st table_name f)])
           (completed cfg ts strm files)
  ++ match failed cfg ts strm files with
     | Some f => [LogInfo (SyncingFile (key f))]
     | None => []
     end.

(** The state the file loop leaves: the bookmark of the last completed file
    over the state before. *)
Definition state_after (cfg : config) (ts : table_spec) (strm : stream) (st : state)
    (table_name : string) (files : list s3_file) : state :=
  match last (completed cfg ts strm files) with
  | Some f => bookmarked st table_name f
  | None => st
  end.

(** The rows as the transformer must see them by the specification:
    normalized when the flag of the config is set, as they are otherwise. *)
Definition transform_all (cfg : config) (schema mdata : value) (rows : list value)
  : result (list value) :=
  mapM (λ row, transform (if null_flag cfg then normalize row else row)
                         schema (to_map mdata)) rows.

End Outcomes.

(** ** A small world to run the functions in

    The end-to-end scenario of the specification: a table with one file of
    2023-02-01 (three rows) and one of 2023-01-15 (two rows), a second table
    whose two files share a modification time, and collaborators simple
    enough to evaluate. *)

Module Demo.

Definition jan01 : datetime := {| instant := 1672531200000000; utcoffset := 0 |}.
Definition jan15 : datetime := {| instant := 1673740800000000; utcoffset := 0 |}.
Definition feb01 : datetime := {| instant := 1675209600000000; utcoffset := 0 |}.

Definition calendar : list (string * datetime) :=
  [("2023-01-01T00:00:00+00:00", jan01);
   ("2023-01-15T00:00:00+00:00", jan15);
   ("2023-02-01T00:00:00+00:00", feb01);
   ("2023-01-01T00:00:00Z", jan01)].

Fixpoint parse_date (entries : list (string * datetime)) (text : string) : result datetime :=
  match entries with
  | [] => Raise (ValueError "Unknown string format")
  | (name, d) :: entries' => if String.eqb name text then Ok d else parse_date entries' text
  end.

Fixpoint format_date (entries : list (string * datetime)) (d : datetime) : string :=
  match entries with
  | [] => ""
  | (name, d') :: entries' =>
      if (instant d' =? instant d) && (utcoffset d' =? utcoffset d) then name
      else format_date entries' d
  end.

Definition clock (n : nat) : datetime :=
  {| instant := 1700000000000000 + Z.of_nat n; utcoffset := 0 |}.

Definition orders : table_spec :=
  {| spec_table_name := Some "orders"; spec_options := [("search_prefix", VStr "exports")] |}.
Definition ties : table_spec :=
  {| spec_table_name := Some "ties"; spec_options := [("search_prefix", VStr "ties")] |}.

Definition feb_file : s3_file := {| key := "exports/feb.csv"; last_modified := feb01 |}.
Definition jan_file : s3_file := {| key := "exports/jan.csv"; last_modified := jan15 |}.
Definition tie_a : s3_file := {| key := "ties/a.csv"; last_modified := jan15 |}.
Definition tie_b : s3_file := {| key := "ties/b.csv"; last_modified := jan15 |}.

(** Discovery keeps the files modified after the watermark, in bucket order. *)
Definition discover (cfg : config) (ts : table_spec) (modified_since : datetime)
  : result (list s3_file) :=
  let listed :=
    match spec_table_name ts with
    | Some name =>
        if String.eqb name "orders" then [feb_file; jan_file]
        else if String.eqb name "ties" then [tie_a; tie_b]
        else []
    | None => []
    end in
  Ok (List.filter (λ f, dt_ltb modified_since (last_modified f)) listed).

Definition jan_csv : string := "name,age|ann,5|bob,7".
Definition feb_csv : string := "name,age|cy,1|dee,|eve,3".
Definition tie_csv : string := "name,age|fay,2".

Definition fetch (cfg : config) (s3_path : string) : result file_handle :=
  if String.eqb s3_path "exports/jan.csv"
  then Ok {| handle_path := s3_path; raw_stream := jan_csv |}
  else if String.eqb s3_path "exports/feb.csv"
  then Ok {| handle_path := s3_path; raw_stream := feb_csv |}
  else if String.eqb s3_path "ties/a.csv" || String.eqb s3_path "ties/b.csv"
  then Ok {| handle_path := s3_path; raw_stream := tie_csv |}
  else Raise (StorageError "NoSuchKey").

Definition person (name age : string) : value :=
  VDict [("name", VStr name); ("age", VStr age)].

Definition jan_rows : list value := [person "ann" "5"; person "bob" "7"].
Definition feb_rows : list value := [person "cy" "1"; person "dee" ""; person "eve" "3"].
Definition tie_rows : list value := [person "fay" "2"].

Definition rows_of (raw : string) (ts : table_spec) : row_iter :=
  if String.eqb raw jan_csv then rows_then jan_rows IterStop
  else if String.eqb raw feb_csv then rows_then feb_rows IterStop
  else if String.eqb raw tie_csv then rows_then tie_rows IterStop
  else IterRaise (CsvError "malformed file").

Definition digit_of (c : ascii) : option Z :=
  let n := Z.of_nat (nat_of_ascii c) in
  if (48 <=? n) && (n <=? 57) then Some (n - 48) else None.

Fixpoint digits (s : string) (acc : Z) : option Z :=
  match s with
  | EmptyString => Some acc
  | String c s' => match digit_of c with
                   | Some d => digits s' (10 * acc + d)
                   | None => None
                   end
  end.

(** One field against the type its schema property declares. *)
Definition coerce (declared : option value) (x : value) : result value :=
  match declared, x with
  | _, VNone => Ok VNone
  | Some (VStr "string"), VStr s => Ok (VStr s)
  | Some (VStr "integer"), VStr (String c s) =>
      match digits (String c s) 0 with
      | Some n => Ok (VInt n)
      | None => Raise (SchemaError "not an integer")
      end
  | _, _ => Raise (SchemaError "does not match the schema")
  end.

Fixpoint lookup_entry (k : string) (entries : list (string * value)) : option value :=
  match entries with
  | [] => None
  | (k', x) :: entries' => if String.eqb k k' then Some x else lookup_entry k entries'
  end.

Fixpoint coerce_all (properties : list (string * value)) (entries : list (string * value))
  : result (list (string * value)) :=
  match entries with
  | [] => Ok []
  | (k, x) :: entries' =>
      x' ← coerce (lookup_entry k properties) x;
      rest ← coerce_all properties entries';
      Ok ((k, x') :: rest)
  end.

Definition validate (row schema : value) (mdata : unit) : result value :=
  match row, schema with
  | VDict entries, VDict properties => VDict <$> coerce_all properties entries
  | _, _ => Raise (SchemaError "not an object")
  end.

Definition env : Collaborators :=
  {| meta_map := unit;
     strptime_with_tz := parse_date calendar;
     isoformat := format_date calendar;
     now := clock;
     get_input_files_for_table := discover;
     get_file_handle := fetch;
     get_row_iterator := rows_of;
     to_map := λ _, tt;
     transform := validate |}.

Definition people : stream :=
  {| stream_schema := Some (VDict [("name", VStr "string"); ("age", VStr "integer")]);
     stream_metadata := Some (VList []) |}.

Definition cfg (flag : bool) : config :=
  {| cfg_bucket := Some "bucket";
     cfg_table_suffix := None;
     cfg_start_date := Some "2023-01-01T00:00:00Z";
     cfg_set_empty_values_null := Some (VBool flag) |}.

Definition fresh (st : state) : store :=
  {| st_state := st; st_open := []; st_field_size_limit := 131072; st_clock := 0 |}.

(** Runs of the orchestrator: the scenario with the flag set, the same with
    the flag off (the blank age of the second row of the February file is
    then not an integer), and the table with two files of one time. *)
Definition nightly : result nat * store * list event :=
  @sync_stream env (cfg true) orders people (fresh ∅).
Definition unnormalized : result nat * store * list event :=
  @sync_stream env (cfg false) orders people (fresh ∅).
Definition tied : result nat * store * list event :=
  @sync_stream env (cfg true) ties people (fresh ∅).

(** States with a bookmark for the orders table. *)
Definition resumed (val : string) : state := {["orders" := {["modified_since" := val]}]}.

End Demo.

(** ** Further notions for the properties *)

(** The one exception of the normalizer's own making. *)
Definition tuple_error : exn :=
  TypeError "'tuple' object does not support item assignment".

(** A value is blank free when no string in it, at any depth, is empty or
    whitespace only (keys do not count). *)
Fixpoint blank_free (v : value) : bool :=
  match v with
  | VStr s => negb (PyStr.all_whitespace s)
  | VList items | VTuple items => forallb blank_free items
  | VDict entries => forallb (λ kv, blank_free kv.2) entries
  | _ => true
  end.

(** [r] is the same kind of container as [v], of the same length or with the
    same keys in the same order; for a scalar [v], [r] is [v] or null. *)
Definition same_container (v r : value) : Prop :=
  match v, r with
  | VList items, VList items' => length items' = length items
  | VTuple items, VTuple items' => length items' = length items
  | VDict entries, VDict entries' => entries'.*1 = entries.*1
  | (VList _ | VTuple _ | VDict _), _ => False
  | scalar, _ => r = VNone ∨ r = scalar
  end.

(** The records that went out, each with its extraction time. *)
Definition written (t : list event) : list (string * value * datetime) :=
  omap (λ e, match e with
             | WriteRecord name record time_extracted => Some (name, record, time_extracted)
             | _ => None
             end) t.

(** The store after [n] more readings of the clock. *)
Definition advance (n : nat) (s : store) : store :=
  {| st_state := st_state s; st_open := st_open s;
     st_field_size_limit := st_field_size_limit s; st_clock := n + st_clock s |}.

(** The store once the stream [h] was returned and the field size limit was
    lifted. *)
Definition fetched (h : file_handle) (s : store) : store :=
  {| st_state := st_state s; st_open := h :: st_open s;
     st_field_size_limit := sys_maxsize; st_clock := st_clock s |}.

Section MoreOutcomes.
Context `{Collaborators}.

(** The records of [recs] as they go out for the table [table_name] when the
    clock has been read [clock] times: the record of the i-th row carries the
    reading number [clock + i]. *)
Definition stamped (table_name : string) (clock : nat) (recs : list value)
  : list (string * value * datetime) :=
  imap (λ i record, (table_name, record, now (clock + i))) recs.

(** How an iterator that does not go on well ends: it raises, or the row it
    yields is rejected on its way to the sink. *)
Definition first_failure (cfg : config) (strm : stream) (ending : row_iter) : option exn :=
  match ending with
  | IterStop => None
  | IterRaise e => Some e
  | IterRow row _ =>
      match transform_row cfg strm row with
      | Raise e => Some e
      | Ok _ => None
      end
  end.

(** What the orchestrator has to obtain before the file loop: the watermark,
    then the files modified since. *)
Definition discovered (cfg : config) (ts : table_spec) (st : state) (table_name : string)
  : result (list s3_file) :=
  modified_since ← resolve_modified_since cfg st table_name;
  get_input_files_for_table cfg ts modified_since.

(** The files the file sync unit is invoked on: the completed ones and the
    one that failed. *)
Definition attempted (cfg : config) (ts : table_spec) (strm : stream)
    (files : list s3_file) : list s3_file :=
  completed cfg ts strm files ++ option_list (failed cfg ts strm files).

End MoreOutcomes.

(** ** More cases of the small world *)

Module Cases.

(** A config with a table suffix, one without a start date, and a stream
    without a schema. *)
Definition suffixed : config :=
  {| cfg_bucket := Some "bucket";
     cfg_table_suffix := Some "_v2";
     cfg_start_date := Some "2023-01-01T00:00:00Z";
     cfg_set_empty_values_null := Some (VBool true) |}.

Definition undated : config :=
  {| cfg_bucket := Some "bucket";
     cfg_table_suffix := None;
     cfg_start_date := None;
     cfg_set_empty_values_null := None |}.

Definition shapeless : stream :=
  {| stream_schema := None; stream_metadata := Some (VList []) |}.

(** A state with more than the bookmark of the orders table. *)
Definition crowded : state :=
  {["orders" := {["modified_since" := "2023-01-01T00:00:00Z"; "version" := "3"]};
    "refunds" := {["modified_since" := "2023-02-01T00:00:00+00:00"]}]}.

(** The world where the second of the two files of one time holds a row with
    a blank age. *)
Definition fetch (cfg : config) (s3_path : string) : result file_handle :=
  if String.eqb s3_path "ties/b.csv"
  then Ok {| handle_path := s3_path; raw_stream := Demo.feb_csv |}
  else Demo.fetch cfg s3_path.

Definition env : Collaborators :=
  {| meta_map := unit;
     strptime_with_tz := Demo.parse_date Demo.calendar;
     isoformat := Demo.format_date Demo.calendar;
     now := Demo.clock;
     get_input_files_for_table := Demo.discover;
     get_file_handle := fetch;
     get_row_iterator := Demo.rows_of;
     to_map := λ _, tt;
     transform := Demo.validate |}.

(** The first run over the two files, which fails at the second, and the run
    after it. *)
Definition first_run : result nat * store * list event :=
  @sync_stream env (Demo.cfg false) Demo.ties Demo.people (Demo.fresh ∅).
Definition second_run : result nat * store * list event :=
  @sync_stream env (Demo.cfg false) Demo.ties Demo.people first_run.1.2.

(** The run of the scenario, and the run after it. *)
Definition nightly_again : result nat * store * list event :=
  @sync_stream Demo.env (Demo.cfg true) Demo.orders Demo.people Demo.nightly.1.2.

End Cases.

(** * Properties *)

(** ** The null normalizer *)

Section NormalizerFacts.
Implicit Types (v : value) (f : value → result value) (g : value → value).

(** The string form of anything but a string starts with a character that is
    not whitespace: a letter, a digit, a sign or a bracket. *)
Lemma str_not_space v :
  (∀ s, v ≠ VStr s) → PyStr.isspace (PyStr.str v) = false.
Proof.
  intros Hv. destruct v as [| [] | n | s | items | items | entries]; try reflexivity.
  - unfold PyStr.str, PyStr.repr, PyStr.str_int.
    destruct (Z.to_int n) as [d | d]; [destruct d|]; reflexivity.
  - by destruct (Hv s).
  - destruct items as [| x [| y items]]; reflexivity.
Qed.

(** On a string, the test of the code is the specification's blank test. *)
Lemma blank_test s :
  eq_empty_str (VStr s) || PyStr.isspace (PyStr.str (VStr s)) = PyStr.all_whitespace s.
Proof. destruct s; reflexivity. Qed.

(** The equations of [set_empty_values_null], one per kind of value. *)
Lemma set_empty_values_null_scalar v :
  non_string_scalar v = true → set_empty_values_null v = Ok v.
Proof. destruct v as [| [] | n | | | |]; try done; intros _.
  change (set_empty_values_null (VInt n))
    with (if eq_empty_str (VInt n) || PyStr.isspace (PyStr.str (VInt n))
          then Ok VNone else Ok (VInt n)).
  by rewrite str_not_space.
Qed.

Lemma set_empty_values_null_str s :
  set_empty_values_null (VStr s) = Ok (if PyStr.all_whitespace s then VNone else VStr s).
Proof.
  change (set_empty_values_null (VStr s))
    with (if eq_empty_str (VStr s) || PyStr.isspace (PyStr.str (VStr s))
          then Ok VNone else Ok (VStr s)).
  rewrite blank_test. by destruct (PyStr.all_whitespace s).
Qed.

Lemma set_empty_values_null_list items :
  set_empty_values_null (VList items) =
  VList <$> scrub_elements list_setitem set_empty_values_null 0 items items.
Proof.
  cbn [set_empty_values_null].
  destruct (scrub_elements _ _ _ _ _); reflexivity.
Qed.

Lemma set_empty_values_null_tuple items :
  set_empty_values_null (VTuple items) =
  VTuple <$> scrub_elements tuple_setitem set_empty_values_null 0 items items.
Proof.
  cbn [set_empty_values_null].
  destruct (scrub_elements _ _ _ _ _) as [t|]; [|reflexivity].
  destruct items as [| x [| y items]]; reflexivity.
Qed.

Lemma set_empty_values_null_dict entries :
  set_empty_values_null (VDict entries) =
  VDict <$> scrub_entries set_empty_values_null entries entries.
Proof.
  cbn [set_empty_values_null].
  destruct (scrub_entries _ _ _); reflexivity.
Qed.

(** Assigning to a key that is present, past a prefix that lacks it. *)
Lemma dict_setitem_app k x x' (pre rest : list (string * value)) :
  k ∉ pre.*1 →
  dict_setitem k x (pre ++ (k, x') :: rest) = pre ++ (k, x) :: rest.
Proof.
  induction pre as [| [k0 x0] pre IH]; intros Hk; simpl.
  - by rewrite decide_True.
  - rewrite fmap_cons, not_elem_of_cons in Hk. destruct Hk as [Hne Hk].
    rewrite decide_False by done. by rewrite IH.
Qed.

Lemma map_values_keys g entries : (map_values g entries).*1 = entries.*1.
Proof. induction entries as [| [k x] entries IH]; [done | by simpl; f_equal]. Qed.

(** The dict loop, when [f] succeeds on every value still to visit: the
    values are replaced one by one and the keys stay. *)
Lemma scrub_entries_map f g pre todo :
  NoDup (pre ++ todo).*1 →
  Forall (λ kv, f kv.2 = Ok (g kv.2)) todo →
  scrub_entries f todo (map_values g pre ++ todo) = Ok (map_values g (pre ++ todo)).
Proof.
  revert pre. induction todo as [| [k x] todo IH]; intros pre Hnd Hf; simpl.
  - by rewrite !app_nil_r.
  - apply Forall_cons in Hf as [Hx Hf]. simpl in Hx. rewrite Hx. simpl.
    rewrite dict_setitem_app.
    + replace (map_values g pre ++ (k, g x) :: todo)
        with (map_values g (pre ++ [(k, x)]) ++ todo)
        by (unfold map_values; rewrite map_app; by rewrite <- app_assoc).
      replace (pre ++ (k, x) :: todo) with ((pre ++ [(k, x)]) ++ todo) in *
        by (by rewrite <- app_assoc).
      by apply IH.
    + rewrite map_values_keys. rewrite fmap_app in Hnd.
      apply NoDup_app in Hnd as (_ & Hnd & _). intros Hin.
      apply (Hnd k Hin). simpl. left.
Qed.

(** The list loop, when [f] succeeds on every item still to visit. *)
Lemma scrub_elements_map f g pre todo :
  Forall (λ x, f x = Ok (g x)) todo →
  scrub_elements list_setitem f (length pre) todo (map g pre ++ todo)
  = Ok (map g (pre ++ todo)).
Proof.
  revert pre. induction todo as [| x todo IH]; intros pre Hf; simpl.
  - by rewrite !app_nil_r.
  - apply Forall_cons in Hf as [Hx Hf]. rewrite Hx. simpl.
    unfold list_setitem. rewrite decide_True.
    2:{ rewrite length_app, length_map. simpl. lia. }
    simpl. rewrite insert_app_r_alt by (rewrite length_map; lia).
    rewrite length_map, Nat.sub_diag. simpl.
    replace (map g pre ++ g x :: todo) with (map g (pre ++ [x]) ++ todo)
      by (rewrite map_app; by rewrite <- app_assoc).
    replace (pre ++ x :: todo) with ((pre ++ [x]) ++ todo)
      by (by rewrite <- app_assoc).
    replace (S (length pre)) with (length (pre ++ [x]))
      by (rewrite length_app; simpl; lia).
    by apply IH.
Qed.

(** Either loop raises as soon as [f] raises on a value. *)
Lemma scrub_entries_raises f todo ret :
  Exists (λ kv, Result.is_ok (f kv.2) = false) todo →
  Result.is_ok (scrub_entries f todo ret) = false.
Proof.
  revert ret. induction todo as [| [k x] todo IH]; intros ret Hex; simpl.
  - by apply Exists_nil in Hex.
  - destruct (f x) as [x' | e] eqn:Hx; simpl; [| done].
    apply Exists_cons in Hex as [Hex | Hex]; [simpl in Hex; by rewrite Hx in Hex |].
    by apply IH.
Qed.

Lemma scrub_elements_raises setitem f i todo ret :
  Exists (λ x, Result.is_ok (f x) = false) todo →
  Result.is_ok (scrub_elements setitem f i todo ret) = false.
Proof.
  revert i ret. induction todo as [| x todo IH]; intros i ret Hex; simpl.
  - by apply Exists_nil in Hex.
  - destruct (f x) as [x' | e] eqn:Hx; simpl; [| done].
    apply Exists_cons in Hex as [Hex | Hex]; [by rewrite Hx in Hex |].
    destruct (setitem i x' ret); simpl; [by apply IH | done].
Qed.

(** The first assignment to a tuple raises, whatever [f] returned. *)
Lemma scrub_elements_tuple_raises f x items ret :
  Result.is_ok (scrub_elements tuple_setitem f 0 (x :: items) ret) = false.
Proof. simpl. by destruct (f x). Qed.

(** On a well-formed value without a non-empty tuple, the code computes the
    specification's normalizer. *)
Lemma set_empty_values_null_normalize v :
  wf_value v = true → tuple_free v = true →
  set_empty_values_null v = Ok (normalize v).
Proof.
  induction v as [| b | n | s | items IH | items IH | entries IH] using value_ind_nested;
    intros Hwf Htf.
  - by apply set_empty_values_null_scalar.
  - by apply set_empty_values_null_scalar.
  - by apply set_empty_values_null_scalar.
  - apply set_empty_values_null_str.
  - rewrite set_empty_values_null_list. simpl in Hwf, Htf.
    rewrite (scrub_elements_map _ normalize [] items); [done |].
    rewrite forallb_forall in Hwf, Htf. rewrite Forall_forall in IH |- *.
    intros x Hx. apply IH; [done | apply Hwf | apply Htf]; by apply list_elem_of_In.
  - simpl in Htf. destruct items; [reflexivity | done].
  - rewrite set_empty_values_null_dict. simpl in Hwf, Htf.
    apply andb_prop in Hwf as [Hnd Hwf]. apply bool_decide_eq_true in Hnd.
    rewrite (scrub_entries_map _ normalize [] entries); [done | done |].
    rewrite forallb_forall in Hwf, Htf. rewrite Forall_forall in IH |- *.
    intros kv Hkv. apply IH; [done | apply Hwf | apply Htf]; by apply list_elem_of_In.
Qed.

(** On a value with a non-empty tuple, the code raises. *)
Lemma set_empty_values_null_tuple_raises v :
  tuple_free v = false → Result.is_ok (set_empty_values_null v) = false.
Proof.
  induction v as [| b | n | s | items IH | items IH | entries IH] using value_ind_nested;
    intros Htf; try done.
  - rewrite set_empty_values_null_list. simpl in Htf.
    assert (Result.is_ok (scrub_elements list_setitem set_empty_values_null 0 items items)
            = false) as Hloop.
    { apply scrub_elements_raises. revert Htf.
      induction IH as [| x items' Hx _ IH']; intros Htf; [done |]. simpl in Htf.
      apply andb_false_iff in Htf as [Htf | Htf]; [left; auto | right; auto]. }
    by destruct (scrub_elements _ _ _ _ _).
  - destruct items as [| x items]; [done |]. rewrite set_empty_values_null_tuple.
    pose proof (scrub_elements_tuple_raises set_empty_values_null x items (x :: items)).
    by destruct (scrub_elements _ _ _ _ _).
  - rewrite set_empty_values_null_dict. simpl in Htf.
    assert (Result.is_ok (scrub_entries set_empty_values_null entries entries) = false)
      as Hloop.
    { apply scrub_entries_raises. revert Htf.
      induction IH as [| x items' Hx _ IH']; intros Htf; [done |]. simpl in Htf.
      apply andb_false_iff in Htf as [Htf | Htf]; [left; auto | right; auto]. }
    by destruct (scrub_entries _ _ _).
Qed.

(** The specification's normalizer is idempotent and keeps a value well
    formed and tuple free. *)
Lemma normalize_idempotent v : normalize (normalize v) = normalize v.
Proof.
  induction v as [| b | n | s | items IH | items IH | entries IH] using value_ind_nested;
    try done.
  - simpl. by destruct (PyStr.all_whitespace s) eqn:Hs; simpl; rewrite ?Hs.
  - simpl. f_equal. rewrite map_map. apply map_ext_Forall, IH.
  - simpl. f_equal. rewrite map_map. apply map_ext_Forall, IH.
  - simpl. f_equal. rewrite map_map. apply map_ext_Forall.
    eapply Forall_impl; [exact IH |]. intros [k x] Hx; simpl in *. by rewrite Hx.
Qed.

Lemma forallb_map_normalize (p : value → bool) items :
  Forall (λ x, p x = true → p (normalize x) = true) items →
  forallb p items = true → forallb p (map normalize items) = true.
Proof.
  induction 1 as [| x items Hx _ IH]; [done |]. simpl. intros Hp.
  apply andb_prop in Hp as [Hp1 Hp2]. by rewrite Hx, IH.
Qed.

Lemma forallb_map_values_normalize (p : value → bool)
    (entries : list (string * value)) :
  Forall (λ kv, p kv.2 = true → p (normalize kv.2) = true) entries →
  forallb (λ kv, p kv.2) entries = true →
  forallb (λ kv, p kv.2) (map (λ kv, (kv.1, normalize kv.2)) entries) = true.
Proof.
  induction 1 as [| x items Hx _ IH]; [done |]. simpl. intros Hp.
  apply andb_prop in Hp as [Hp1 Hp2]. by rewrite Hx, IH.
Qed.

Lemma wf_normalize v : wf_value v = true → wf_value (normalize v) = true.
Proof.
  induction v as [| b | n | s | items IH | items IH | entries IH] using value_ind_nested;
    try done.
  - simpl. by destruct (PyStr.all_whitespace s).
  - apply forallb_map_normalize, IH.
  - apply forallb_map_normalize, IH.
  - simpl. intros Hwf. apply andb_prop in Hwf as [Hnd Hwf].
    apply andb_true_intro. split.
    + apply bool_decide_eq_true. apply bool_decide_eq_true in Hnd.
      pose proof (map_values_keys normalize entries) as Hkeys.
      unfold map_values in Hkeys. by rewrite Hkeys.
    + by apply forallb_map_values_normalize.
Qed.

Lemma tuple_free_normalize v : tuple_free v = true → tuple_free (normalize v) = true.
Proof.
  induction v as [| b | n | s | items IH | items IH | entries IH] using value_ind_nested;
    try done.
  - simpl. by destruct (PyStr.all_whitespace s).
  - apply forallb_map_normalize, IH.
  - simpl. by destruct items.
  - by apply forallb_map_values_normalize.
Qed.

(** A result of the code is a fixed point of the code. *)
Lemma set_empty_values_null_fixed v r :
  wf_value v = true → set_empty_values_null v = Ok r → set_empty_values_null r = Ok r.
Proof.
  intros Hwf Hr. destruct (tuple_free v) eqn:Htf.
  - rewrite set_empty_values_null_normalize in Hr by done. injection Hr as <-.
    rewrite set_empty_values_null_normalize
      by auto using wf_normalize, tuple_free_normalize.
    by rewrite normalize_idempotent.
  - apply set_empty_values_null_tuple_raises in Htf. by rewrite Hr in Htf.
Qed.

End NormalizerFacts.

(** C4, at the input where the code departs from it: a deep copy with the
    scalar ["a"] preserved is what the specification's normalizer gives for the
    one-element tuple [("a",)], and the code raises [TypeError] on the item
    assignment to the tuple. *)
Theorem set_empty_values_null_rejects_tuple :
  normalize (VTuple [VStr "a"]) = VTuple [VStr "a"] ∧
  set_empty_values_null (VTuple [VStr "a"])
  = Raise (TypeError "'tuple' object does not support item assignment").
Proof. split; reflexivity. Qed.

(** C5: the normalizer maps the empty string and a string of spaces to null,
    the string ["a"] to itself and the integer 0 to itself; on a scalar [v]
    that is not a string it tests the string form of [v] for whitespace and
    returns null when the test holds and [v] otherwise, never the string
    form. *)
Theorem set_empty_values_null_on_scalars (v : value) :
  non_string_scalar v = true →
  set_empty_values_null (VStr "") = Ok VNone ∧
  set_empty_values_null (VStr "   ") = Ok VNone ∧
  set_empty_values_null (VStr "a") = Ok (VStr "a") ∧
  set_empty_values_null (VInt 0) = Ok (VInt 0) ∧
  set_empty_values_null v = Ok (if PyStr.isspace (PyStr.str v) then VNone else v) ∧
  set_empty_values_null v ≠ Ok (VStr (PyStr.str v)).
Proof.
  intros Hv. repeat split; try reflexivity.
  - rewrite str_not_space by (by destruct v). by apply set_empty_values_null_scalar.
  - rewrite set_empty_values_null_scalar by done. by destruct v.
Qed.

Lemma set_empty_values_null_on_scalars_witness :
  set_empty_values_null (VStr "") = Ok VNone ∧
  set_empty_values_null (VStr "   ") = Ok VNone ∧
  set_empty_values_null (VStr "a") = Ok (VStr "a") ∧
  set_empty_values_null (VInt 0) = Ok (VInt 0) ∧
  set_empty_values_null (VInt (-7))
  = Ok (if PyStr.isspace (PyStr.str (VInt (-7))) then VNone else VInt (-7)) ∧
  set_empty_values_null (VInt (-7)) ≠ Ok (VStr (PyStr.str (VInt (-7)))).
Proof. apply (set_empty_values_null_on_scalars (VInt (-7))). reflexivity. Defined.

(** C6: the normalizer is idempotent. Running it on its own result gives that
    result again, and where it raises, running it twice raises the same. *)
Theorem set_empty_values_null_idempotent (v : value) :
  wf_value v = true →
  set_empty_values_null v ≫= set_empty_values_null = set_empty_values_null v.
Proof.
  intros Hwf. destruct (set_empty_values_null v) as [r | e] eqn:Hr; [| reflexivity].
  exact (set_empty_values_null_fixed v r Hwf Hr).
Qed.

Lemma set_empty_values_null_idempotent_witness :
  let v := VDict [("a", VStr "");
                  ("b", VList [VStr " "; VStr "x"; VDict [("c", VStr "")]])] in
  set_empty_values_null v ≫= set_empty_values_null = set_empty_values_null v.
Proof.
  apply (set_empty_values_null_idempotent
           (VDict [("a", VStr "");
                   ("b", VList [VStr " "; VStr "x"; VDict [("c", VStr "")]])])).
  vm_compute. reflexivity.
Defined.

(** ** Python's [sorted] *)

Section SortedFacts.
Context {A : Type} (sort_key : A → datetime).

Lemma insert_sorted_perm x l : insert_sorted sort_key x l ≡ₚ x :: l.
Proof.
  induction l as [| y l IH]; simpl; [done |].
  destruct (dt_ltb _ _); [| done]. rewrite IH. apply Permutation_swap.
Qed.

Lemma sorted_perm l : sorted sort_key l ≡ₚ l.
Proof.
  induction l as [| x l IH]; simpl; [done |].
  by rewrite insert_sorted_perm, IH.
Qed.

Lemma insert_sorted_ascending x l :
  StronglySorted (key_le sort_key) l →
  StronglySorted (key_le sort_key) (insert_sorted sort_key x l).
Proof.
  induction 1 as [| y l Hl IH Hy]; simpl.
  - repeat constructor.
  - unfold dt_ltb. destruct (Z.ltb_spec (instant (sort_key y)) (instant (sort_key x))).
    + constructor; [done |]. rewrite insert_sorted_perm.
      constructor; [unfold key_le, dt_le; lia | done].
    + constructor; [by constructor |]. constructor; [done |].
      eapply Forall_impl; [exact Hy |]. unfold key_le, dt_le. intros z Hz. simpl in *. lia.
Qed.

Lemma sorted_ascending l : StronglySorted (key_le sort_key) (sorted sort_key l).
Proof.
  induction l as [| x l IH]; simpl; [constructor | by apply insert_sorted_ascending].
Qed.

(** Ascending without two equal keys is strictly ascending. *)
Lemma ascending_strict l :
  StronglySorted (key_le sort_key) l → NoDup (map (λ a, instant (sort_key a)) l) →
  StronglySorted (key_lt sort_key) l.
Proof.
  induction 1 as [| x l Hl IH Hx]; intros Hnd; [constructor |].
  simpl in Hnd. apply NoDup_cons in Hnd as [Hnotin Hnd].
  constructor; [by apply IH |].
  rewrite Forall_forall in Hx |- *. intros y Hy. specialize (Hx y Hy).
  assert (instant (sort_key x) ≠ instant (sort_key y)) as Hne.
  { intros Heq. apply Hnotin. rewrite Heq.
    apply (list_elem_of_fmap_2 (λ a, instant (sort_key a))), Hy. }
  unfold key_le, key_lt, dt_le, dt_lt in *. lia.
Qed.

Lemma sorted_strict l :
  NoDup (map (λ a, instant (sort_key a)) l) →
  StronglySorted (key_lt sort_key) (sorted sort_key l).
Proof.
  intros Hnd. apply ascending_strict; [apply sorted_ascending |].
  assert (map (λ a, instant (sort_key a)) (sorted sort_key l)
          ≡ₚ map (λ a, instant (sort_key a)) l) as Hperm
    by apply Permutation_map, sorted_perm.
  by rewrite Hperm.
Qed.

(** The sort is stable: the elements with one key keep their order. *)
Lemma insert_sorted_stable i x l :
  with_key sort_key i (insert_sorted sort_key x l) = with_key sort_key i (x :: l).
Proof.
  induction l as [| y l IH]; [done |]. simpl. unfold dt_ltb.
  destruct (Z.ltb_spec (instant (sort_key y)) (instant (sort_key x))); [| done].
  unfold with_key in *. simpl in *. rewrite IH.
  destruct (Z.eqb_spec (instant (sort_key x)) i), (Z.eqb_spec (instant (sort_key y)) i);
    try done; lia.
Qed.

Lemma sorted_stable i l : with_key sort_key i (sorted sort_key l) = with_key sort_key i l.
Proof.
  induction l as [| x l IH]; [done |]. simpl. rewrite insert_sorted_stable.
  unfold with_key in *. simpl. by rewrite IH.
Qed.

(** A list whose filtered form is [a ++ x :: b] splits around [x]. *)
Lemma filter_split (P : A → bool) (l a : list A) (x : A) (b : list A) :
  List.filter P l = a ++ x :: b →
  ∃ l1 l2, l = l1 ++ x :: l2 ∧ List.filter P l1 = a ∧ List.filter P l2 = b.
Proof.
  revert a. induction l as [| y l IH]; intros a; simpl.
  - by destruct a.
  - destruct (P y) eqn:Hy.
    + destruct a as [| z a]; simpl.
      * intros [= -> Hl]. by exists [], l.
      * intros [= -> Hl]. destruct (IH a Hl) as (l1 & l2 & -> & Hl1 & Hl2).
        exists (z :: l1), l2. simpl. by rewrite Hy, Hl1.
    + intros Hl. destruct (IH a Hl) as (l1 & l2 & -> & Hl1 & Hl2).
      exists (y :: l1), l2. simpl. by rewrite Hy.
Qed.

(** Two elements with one key come out of the sort in the order in which
    they went in. *)
Lemma sorted_keeps_ties (l l1 : list A) (x : A) (l2 : list A) (y : A) (l3 : list A) :
  l = l1 ++ x :: l2 ++ y :: l3 →
  instant (sort_key x) = instant (sort_key y) →
  ∃ k1 k2 k3, sorted sort_key l = k1 ++ x :: k2 ++ y :: k3.
Proof.
  intros -> Hxy.
  pose proof (sorted_stable (instant (sort_key x)) (l1 ++ x :: l2 ++ y :: l3)) as Hstable.
  unfold with_key in Hstable.
  rewrite (List.filter_app _ l1) in Hstable. simpl in Hstable.
  rewrite Z.eqb_refl in Hstable.
  rewrite (List.filter_app _ l2) in Hstable. simpl in Hstable.
  rewrite <- Hxy, Z.eqb_refl in Hstable.
  apply filter_split in Hstable as (k1 & k & -> & _ & Hk).
  apply filter_split in Hk as (k2 & k3 & -> & _ & _).
  by exists k1, k2, k3.
Qed.

(** In a list without duplicates an element has one place. *)
Lemma NoDup_middle (l a b a' b' : list A) (x : A) :
  NoDup l → l = a ++ x :: b → l = a' ++ x :: b' → a = a'.
Proof.
  intros Hnd Ha Ha'.
  assert (length a = length a') as Hlen.
  { apply (NoDup_lookup l _ _ x Hnd).
    - rewrite Ha. by apply list_lookup_middle.
    - rewrite Ha'. by apply list_lookup_middle. }
  rewrite <- (take_app_length a (x :: b)), <- Ha, Hlen, Ha'.
  apply take_app_length.
Qed.

End SortedFacts.

(** ** Runs of the monad *)

Lemma bind_run {A B : Type} (m : M A) (k : A → M B) (s : store) :
  (m ≫= k) s =
  match m s with
  | (Ok a, s1, t1) => let '(r, s2, t2) := k a s1 in (r, s2, t1 ++ t2)
  | (Raise e, s1, t1) => (Raise e, s1, t1)
  end.
Proof. reflexivity. Qed.

Lemma bind_lift {A B : Type} (r : result A) (k : A → M B) (s : store) :
  (lift r ≫= k) s = match r with Ok a => k a s | Raise e => (Raise e, s, []) end.
Proof.
  rewrite bind_run. unfold lift. destruct r as [a | e]; [| done].
  by destruct (k a s) as [[? ?] ?].
Qed.

Lemma bind_emit {B : Type} (e : event) (k : unit → M B) (s : store) :
  (emit e ≫= k) s = let '(r, s2, t2) := k () s in (r, s2, e :: t2).
Proof. reflexivity. Qed.

Lemma progress_app t1 t2 : progress (t1 ++ t2) = progress t1 ++ progress t2.
Proof. apply omap_app. Qed.

Lemma records_app t1 t2 : records (t1 ++ t2) = records t1 ++ records t2.
Proof. apply omap_app. Qed.

Lemma persisted_progress t : persisted (progress t) = persisted t.
Proof.
  induction t as [| [[] | | | |] t IH]; simpl; try done.
  all: unfold persisted, progress in *; simpl; by rewrite ?IH.
Qed.

Lemma invoked_progress t : invoked (progress t) = invoked t.
Proof.
  induction t as [| [[] | | | |] t IH]; simpl; try done.
  all: unfold invoked, progress in *; simpl; by rewrite ?IH.
Qed.

(** One step of a run: the next bind, or the case of a result. *)
Ltac run_step :=
  first
    [ rewrite bind_lift
    | rewrite bind_emit
    | rewrite bind_run ];
  cbn [mbind result_bind Result.bind].

Section SyncFacts.
Context `{Collaborators}.
Implicit Types (cfg : config) (ts : table_spec) (strm : stream) (s : store).

(** *** The row loop *)

(** The row loop returns what [rows_outcome] says, leaves the state, the open
    streams and the field size limit as they were, and emits records only. *)
Lemma sync_rows_run cfg strm table_name iterator n s :
  ∃ s' t,
    sync_rows cfg strm table_name iterator n s
    = (rows_outcome cfg strm iterator n, s', t) ∧
    st_state s' = st_state s ∧ st_open s' = st_open s ∧
    st_field_size_limit s' = st_field_size_limit s ∧ progress t = [].
Proof.
  revert n s. induction iterator as [| row iterator IH | e]; intros n s.
  - by exists s, [].
  - cbn [sync_rows rows_outcome]. unfold transform_row.
    rewrite bind_run. cbn [utils_now].
    set (s1 := {| st_state := st_state s; st_open := st_open s;
                  st_field_size_limit := st_field_size_limit s;
                  st_clock := S (st_clock s) |}).
    assert (∃ s' t,
      (lift (if null_flag cfg then set_empty_values_null row else Ok row) ≫= λ row0,
         lift (Result.getitem "schema" (stream_schema strm)) ≫= λ schema,
         lift (Result.getitem "metadata" (stream_metadata strm)) ≫= λ mdata,
         lift (transform row0 schema (to_map mdata)) ≫= λ to_write,
         do_write_record table_name to_write (now (st_clock s)) ≫= λ _,
         sync_rows cfg strm table_name iterator (S n)) s1
      = (((if null_flag cfg then set_empty_values_null row else Ok row) ≫= λ row0,
          Result.getitem "schema" (stream_schema strm) ≫= λ schema,
          Result.getitem "metadata" (stream_metadata strm) ≫= λ mdata,
          transform row0 schema (to_map mdata)) ≫= λ _,
         rows_outcome cfg strm iterator (S n), s', t) ∧
      st_state s' = st_state s ∧ st_open s' = st_open s ∧
      st_field_size_limit s' = st_field_size_limit s ∧ progress t = []) as Hbody.
    { run_step. destruct (if null_flag cfg then _ else _) as [row' | e];
        [| by exists s1, []].
      run_step. cbn [mbind result_bind Result.bind].
      destruct (Result.getitem "schema" _) as [schema | e]; [| by exists s1, []].
      run_step. destruct (Result.getitem "metadata" _) as [mdata | e];
        [| by exists s1, []].
      run_step. destruct (transform row' schema (to_map mdata)) as [to_write | e];
        [| by exists s1, []].
      unfold do_write_record. run_step.
      destruct (IH (S n) s1) as (s' & t & -> & ? & ? & ? & Ht).
      eexists _, _. split; [reflexivity |]. repeat split; try done. }
    destruct Hbody as (s' & t & Hrun & ? & ? & ? & ?).
    destruct (null_flag cfg).
    + rewrite Hrun. by eexists _, _.
    + change (mret row) with (lift (Ok row)). rewrite Hrun. by eexists _, _.
  - by exists s, [].
Qed.

(** When every row goes through, the loop counts the rows and writes one
    record per row, in order. *)
Lemma sync_rows_records cfg strm table_name rows recs n s :
  mapM (transform_row cfg strm) rows = Ok recs →
  ∃ s' t,
    sync_rows cfg strm table_name (rows_then rows IterStop) n s
    = (Ok (n + length rows)%nat, s', t) ∧
    records t = map (pair table_name) recs.
Proof.
  revert recs n s. induction rows as [| row rows IH]; intros recs n s Hrecs.
  - injection Hrecs as <-. exists s, []. by rewrite Nat.add_0_r.
  - cbn [mapM] in Hrecs.
    destruct (transform_row cfg strm row) as [to_write | e] eqn:Hrow; [| done].
    cbn [mbind result_bind Result.bind] in Hrecs.
    destruct (mapM (transform_row cfg strm) rows) as [recs' | e] eqn:Hrows; [| done].
    injection Hrecs as <-.
    cbn [rows_then sync_rows]. rewrite bind_run. cbn [utils_now].
    set (s1 := {| st_state := st_state s; st_open := st_open s;
                  st_field_size_limit := st_field_size_limit s;
                  st_clock := S (st_clock s) |}).
    unfold transform_row in Hrow.
    destruct (IH recs' (S n) s1 eq_refl) as (s' & t & Hrun & Ht).
    exists s', (WriteRecord table_name to_write (now (st_clock s)) :: t).
    replace (n + length (row :: rows))%nat with (S n + length rows)%nat
      by (simpl; lia).
    assert (∀ prepared : result value,
      (prepared ≫= λ row0,
         Result.getitem "schema" (stream_schema strm) ≫= λ schema,
         Result.getitem "metadata" (stream_metadata strm) ≫= λ mdata,
         transform row0 schema (to_map mdata)) = Ok to_write →
      (lift prepared ≫= λ row0,
         lift (Result.getitem "schema" (stream_schema strm)) ≫= λ schema,
         lift (Result.getitem "metadata" (stream_metadata strm)) ≫= λ mdata,
         lift (transform row0 schema (to_map mdata)) ≫= λ to_write,
         do_write_record table_name to_write (now (st_clock s)) ≫= λ _,
         sync_rows cfg strm table_name (rows_then rows IterStop) (S n)) s1
      = (Ok (S n + length rows)%nat, s',
         WriteRecord table_name to_write (now (st_clock s)) :: t)) as Hbody.
    { intros prepared Hp. run_step. destruct prepared as [row' | e]; [| done].
      cbn [mbind result_bind Result.bind] in Hp.
      run_step. destruct (Result.getitem "schema" _) as [schema | e]; [| done].
      cbn [mbind result_bind Result.bind] in Hp.
      run_step. destruct (Result.getitem "metadata" _) as [mdata | e]; [| done].
      cbn [mbind result_bind Result.bind] in Hp.
      run_step. rewrite Hp. unfold do_write_record. run_step. by rewrite Hrun. }
    split; [| unfold records in *; simpl; by f_equal].
    destruct (null_flag cfg).
    + by rewrite (Hbody _ Hrow).
    + change (mret row) with (lift (Ok row)). by rewrite (Hbody _ Hrow).
Qed.

(** With the flag set, a well-formed row without tuples reaches the
    transformer normalized; without the flag, as it is. *)
Lemma transform_row_normalize cfg strm schema mdata row :
  stream_schema strm = Some schema → stream_metadata strm = Some mdata →
  implb (null_flag cfg) (wf_value row && tuple_free row) = true →
  transform_row cfg strm row
  = transform (if null_flag cfg then normalize row else row) schema (to_map mdata).
Proof.
  intros Hs Hm Hrow. unfold transform_row. rewrite Hs, Hm.
  destruct (null_flag cfg); [| done]. simpl in Hrow.
  apply andb_prop in Hrow as [Hwf Htf].
  by rewrite set_empty_values_null_normalize.
Qed.

Lemma transform_all_rows cfg strm schema mdata rows :
  stream_schema strm = Some schema → stream_metadata strm = Some mdata →
  forallb (λ row, implb (null_flag cfg) (wf_value row && tuple_free row)) rows = true →
  mapM (transform_row cfg strm) rows = transform_all cfg schema mdata rows.
Proof.
  intros Hs Hm. unfold transform_all.
  induction rows as [| row rows IH]; [done |]. simpl. intros Hrows.
  apply andb_prop in Hrows as [Hrow Hrows].
  by rewrite (transform_row_normalize _ _ schema mdata), IH.
Qed.

Lemma mapM_result_length {A B : Type} (f : A → result B) l k :
  mapM f l = Ok k → length k = length l.
Proof.
  revert k. induction l as [| x l IH]; intros k Hk; simpl in Hk.
  - by injection Hk as <-.
  - destruct (f x); [| done]. cbn [mbind result_bind Result.bind] in Hk.
    destruct (mapM f l) as [k' |]; [| done]. injection Hk as <-.
    simpl. by rewrite (IH k').
Qed.

(** *** The file sync unit *)

Lemma sync_table_file_run cfg s3_path ts strm s :
  ∃ s' t,
    sync_table_file cfg s3_path ts strm s = (file_outcome cfg ts strm s3_path, s', t) ∧
    st_state s' = st_state s ∧
    st_open s' = opened_by cfg ts s3_path ++ st_open s ∧
    progress t = [LogInfo (SyncingFile s3_path)].
Proof.
  unfold sync_table_file, file_outcome, opened_by, info, open_file.
  run_step. run_step.
  destruct (cfg_bucket cfg) as [bucket |]; simpl; [| by eexists _, _].
  run_step. destruct (table_name_of cfg ts) as [table_name |]; [| by eexists _, _].
  rewrite bind_run, bind_emit, bind_lift.
  destruct (get_file_handle cfg s3_path) as [h | e]; [| by eexists _, _].
  cbn [mark_open]. rewrite bind_run. cbn [csv_field_size_limit].
  match goal with |- context [sync_rows _ _ _ ?it ?n ?s1] =>
    destruct (sync_rows_run cfg strm table_name it n s1) as (s' & t & -> & ? & ? & ? & Ht)
  end.
  eexists _, _. split; [reflexivity |]. simpl. by rewrite Ht.
Qed.


(** *** The file loop *)

Lemma write_bookmark_twice (st : state) table_name name val1 val2 :
  write_bookmark (write_bookmark st table_name name val1) table_name name val2
  = write_bookmark st table_name name val2.
Proof.
  unfold write_bookmark. rewrite lookup_insert_eq. simpl.
  by rewrite !insert_insert_eq.
Qed.

Lemma get_bookmark_write (st : state) table_name name val :
  get_bookmark (write_bookmark st table_name name val) table_name name = Some val.
Proof.
  unfold get_bookmark, write_bookmark. rewrite lookup_insert_eq. simpl.
  by rewrite lookup_insert_eq.
Qed.

Lemma bookmarked_twice (st : state) table_name f g :
  bookmarked (bookmarked st table_name f) table_name g = bookmarked st table_name g.
Proof. apply write_bookmark_twice. Qed.

Lemma state_after_cons_ok cfg ts strm st table_name f files :
  Result.is_ok (file_outcome cfg ts strm (key f)) = true →
  state_after cfg ts strm (bookmarked st table_name f) table_name files
  = state_after cfg ts strm st table_name (f :: files).
Proof.
  intros Hf. unfold state_after. simpl. rewrite Hf.
  destruct (completed cfg ts strm files) as [| g gs] eqn:Hgs; [reflexivity |].
  rewrite last_cons_cons, (last_cons g gs).
  destruct (last gs); apply bookmarked_twice.
Qed.

Lemma file_progress_cons_ok cfg ts strm st table_name f files :
  Result.is_ok (file_outcome cfg ts strm (key f)) = true →
  LogInfo (SyncingFile (key f)) :: WriteState (bookmarked st table_name f)
    :: file_progress cfg ts strm (bookmarked st table_name f) table_name files
  = file_progress cfg ts strm st table_name (f :: files).
Proof.
  intros Hf. unfold file_progress. simpl. rewrite Hf. simpl. do 2 f_equal.
  f_equal. induction (completed cfg ts strm files) as [| g gs IH]; [done |].
  simpl. by rewrite bookmarked_twice, IH.
Qed.

(** The file loop returns what [files_outcome] says; its progress events are
    those of [file_progress], and it leaves the state of [state_after]. *)
Lemma sync_files_run cfg ts strm table_name files n s :
  ∃ s' t,
    sync_files cfg ts strm table_name files n s
    = (files_outcome cfg ts strm files n, s', t) ∧
    progress t = file_progress cfg ts strm (st_state s) table_name files ∧
    st_state s' = state_after cfg ts strm (st_state s) table_name files.
Proof.
  revert n s. induction files as [| f files IH]; intros n s.
  - by exists s, [].
  - cbn [sync_files files_outcome]. rewrite bind_run.
    destruct (sync_table_file_run cfg (key f) ts strm s)
      as (s1 & t1 & -> & Hst & _ & Ht1).
    destruct (file_outcome cfg ts strm (key f)) as [k | e] eqn:Hf.
    + cbn [mbind result_bind Result.bind].
      rewrite bind_run. cbn [do_write_bookmark]. rewrite bind_run. cbn [do_write_state].
      match goal with |- context [sync_files _ _ _ _ _ ?m ?s2] =>
        destruct (IH m s2) as (s' & t & -> & Ht & Hs')
      end.
      eexists _, _. split; [reflexivity |].
      cbn [set_state st_state app] in *. rewrite Hst in *.
      fold (bookmarked (st_state s) table_name f) in *.
      rewrite progress_app, Ht1.
      change (progress (WriteState ?st :: t)) with (WriteState st :: progress t).
      rewrite Ht, Hs'. split.
      * apply (file_progress_cons_ok cfg ts strm). by rewrite Hf.
      * apply (state_after_cons_ok cfg ts strm). by rewrite Hf.
    + exists s1, t1. split; [done |]. unfold file_progress, state_after. simpl.
      by rewrite Hf.
Qed.

(** The files before the first failure are a prefix of the files. *)
Lemma completed_prefix cfg ts strm files :
  completed cfg ts strm files `prefix_of` files.
Proof.
  induction files as [| f files IH]; [done |]. simpl.
  destruct (Result.is_ok _); [by apply prefix_cons | apply prefix_nil].
Qed.

Lemma completed_all cfg ts strm files n :
  Result.is_ok (files_outcome cfg ts strm files n) = true →
  completed cfg ts strm files = files ∧ failed cfg ts strm files = None.
Proof.
  revert n. induction files as [| f files IH]; intros n; [done |]. simpl.
  destruct (file_outcome cfg ts strm (key f)) as [k | e]; [| done]. simpl.
  intros Hok. destruct (IH _ Hok) as [-> ->]. done.
Qed.

Lemma completed_app cfg ts strm pre f post e :
  Forall (λ g, Result.is_ok (file_outcome cfg ts strm (key g)) = true) pre →
  file_outcome cfg ts strm (key f) = Raise e →
  completed cfg ts strm (pre ++ f :: post) = pre ∧
  failed cfg ts strm (pre ++ f :: post) = Some f ∧
  ∀ n, files_outcome cfg ts strm (pre ++ f :: post) n = Raise e.
Proof.
  intros Hpre Hf. induction Hpre as [| g pre Hg _ IH]; simpl.
  - by rewrite Hf.
  - destruct IH as (-> & -> & IH). rewrite Hg. repeat split.
    intros n. destruct (file_outcome cfg ts strm (key g)); [apply IH | done].
Qed.

Lemma attempted_prefix cfg ts strm files :
  completed cfg ts strm files ++ option_list (failed cfg ts strm files) `prefix_of` files.
Proof.
  induction files as [| f files IH]; [done |]. simpl.
  destruct (Result.is_ok _); simpl; [by apply prefix_cons |].
  by apply prefix_cons, prefix_nil.
Qed.

Lemma invoked_file_progress cfg ts strm st table_name files :
  invoked (file_progress cfg ts strm st table_name files)
  = map key (completed cfg ts strm files ++ option_list (failed cfg ts strm files)).
Proof.
  unfold file_progress, invoked. rewrite omap_app, map_app. f_equal.
  - induction (completed cfg ts strm files) as [| g gs IH]; [done |].
    simpl. by f_equal.
  - by destruct (failed cfg ts strm files).
Qed.

Lemma persisted_file_progress cfg ts strm st table_name files :
  persisted (file_progress cfg ts strm st table_name files)
  = map (bookmarked st table_name) (completed cfg ts strm files).
Proof.
  unfold file_progress, persisted. rewrite omap_app.
  replace (omap _ (match failed cfg ts strm files with
                   | Some f => [LogInfo (SyncingFile (key f))]
                   | None => []
                   end)) with (@nil state) by (by destruct (failed _ _ _ _)).
  rewrite app_nil_r.
  induction (completed cfg ts strm files) as [| g gs IH]; [done |].
  simpl. by f_equal.
Qed.

(** A row that the transformer rejects fails the row loop and the file. *)
Lemma rows_transform_failure_outcome cfg strm iterator e n :
  rows_transform_failure cfg strm iterator = Some e →
  rows_outcome cfg strm iterator n = Raise e.
Proof.
  revert n. induction iterator as [| row iterator IH |]; intros n; try done.
  cbn [rows_transform_failure rows_outcome]. unfold transform_row.
  destruct (if null_flag cfg then _ else _) as [row' |]; [| done].
  destruct (stream_schema strm) as [schema |]; [| done].
  destruct (stream_metadata strm) as [mdata |]; [| done]. simpl.
  destruct (transform row' schema (to_map mdata)); simpl; [apply IH | congruence].
Qed.

Lemma transform_failure_outcome cfg ts strm s3_path e :
  transform_failure cfg ts strm s3_path = Some e →
  file_outcome cfg ts strm s3_path = Raise e.
Proof.
  unfold transform_failure, file_outcome.
  destruct (cfg_bucket cfg); [| done]. simpl.
  destruct (table_name_of cfg ts); [| done]. simpl.
  destruct (get_file_handle cfg s3_path); [| done]. simpl.
  apply rows_transform_failure_outcome.
Qed.

(** *** The orchestrator *)

Lemma list_files_run cfg ts modified_since s :
  list_files cfg ts modified_since s
  = (get_input_files_for_table cfg ts modified_since, s, [ListFiles modified_since]).
Proof. reflexivity. Qed.

(** A run that gets to the file loop: what it returns, the events around the
    loop, its progress events and the state it leaves. *)
Lemma sync_stream_run cfg ts strm s table_name modified_since files :
  table_name_of cfg ts = Ok table_name →
  resolve_modified_since cfg (st_state s) table_name = Ok modified_since →
  get_input_files_for_table cfg ts modified_since = Ok files →
  ∃ s' t,
    sync_stream cfg ts strm s
    = (files_outcome cfg ts strm (sorted last_modified files) 0, s',
       LogInfo (SyncingTable table_name) :: LogInfo (GettingFiles modified_since)
         :: ListFiles modified_since :: t) ∧
    progress t
    = file_progress cfg ts strm (st_state s) table_name (sorted last_modified files) ∧
    st_state s'
    = state_after cfg ts strm (st_state s) table_name (sorted last_modified files).
Proof.
  intros Hname Hsince Hfiles. unfold sync_stream, info.
  rewrite bind_lift, Hname. rewrite bind_run. cbn [get_state].
  rewrite bind_lift, Hsince. rewrite !bind_emit. rewrite bind_run, list_files_run.
  rewrite Hfiles. rewrite bind_run.
  destruct (sync_files_run cfg ts strm table_name (sorted last_modified files) 0 s)
    as (s' & t & -> & Ht & Hs').
  destruct (files_outcome _ _ _ _ _) as [total | e].
  - rewrite bind_emit. cbn [mret M_ret]. eexists _, _. split; [reflexivity |].
    split; [| done]. rewrite progress_app, Ht. apply app_nil_r.
  - by eexists _, _.
Qed.

(** A run that does not get to the file loop changes nothing and shows no
    progress. *)
Lemma sync_stream_early cfg ts strm s table_name r s' t :
  table_name_of cfg ts = Ok table_name →
  sync_stream cfg ts strm s = (r, s', t) →
  (∀ modified_since,
     resolve_modified_since cfg (st_state s) table_name = Ok modified_since →
     Result.is_ok (get_input_files_for_table cfg ts modified_since) = false) →
  s' = s ∧ progress t = [] ∧ Result.is_ok r = false.
Proof.
  intros Hname Hrun Hearly. revert Hrun. unfold sync_stream, info.
  rewrite bind_lift, Hname. rewrite bind_run. cbn [get_state].
  rewrite bind_lift.
  destruct (resolve_modified_since cfg (st_state s) table_name) as [w | e].
  - specialize (Hearly w eq_refl).
    rewrite !bind_emit. rewrite bind_run, list_files_run.
    destruct (get_input_files_for_table cfg ts w); [done |].
    intros [= <- <- <-]. done.
  - intros [= <- <- <-]. done.
Qed.

Lemma failed_outcome cfg ts strm files f n :
  failed cfg ts strm files = Some f →
  Result.is_ok (files_outcome cfg ts strm files n) = false.
Proof.
  revert n. induction files as [| g files IH]; intros n; [done |]. simpl.
  destruct (file_outcome cfg ts strm (key g)); simpl; [apply IH | done].
Qed.

Lemma completed_ascending cfg ts strm (files : list s3_file) :
  StronglySorted (key_le last_modified) (completed cfg ts strm (sorted last_modified files)).
Proof.
  destruct (completed_prefix cfg ts strm (sorted last_modified files)) as [rest Hrest].
  pose proof (sorted_ascending last_modified files) as Hsorted.
  rewrite Hrest in Hsorted. by apply StronglySorted_app_1_l in Hsorted.
Qed.

Lemma resolve_watermark_text cfg (st : state) table_name text :
  watermark_text cfg st table_name = Some text →
  resolve_modified_since cfg st table_name = strptime_with_tz text.
Proof.
  unfold watermark_text, resolve_modified_since, bookmark_or.
  destruct (get_bookmark st table_name "modified_since") as [val |].
  - destruct (decide (val = "")) as [-> | Hval].
    + simpl. by intros ->.
    + intros [= ->]. apply String.eqb_neq in Hval. by rewrite Hval.
  - by intros ->.
Qed.

(** *** The orchestrator and the file sync unit, property by property *)

(** The sorted files split at the first file that fails: the completed files
    all go through, and what remains is empty when the loop returns and
    starts with the file whose exception the loop raises otherwise. *)
Lemma files_outcome_split cfg ts strm files n :
  ∃ remaining,
    files = completed cfg ts strm files ++ remaining ∧
    Forall (λ f, Result.is_ok (file_outcome cfg ts strm (key f)) = true)
           (completed cfg ts strm files) ∧
    match remaining with
    | [] => Result.is_ok (files_outcome cfg ts strm files n) = true ∧
            failed cfg ts strm files = None
    | f :: _ => ∃ e, file_outcome cfg ts strm (key f) = Raise e ∧
                     files_outcome cfg ts strm files n = Raise e ∧
                     failed cfg ts strm files = Some f
    end.
Proof.
  revert n. induction files as [| f files IH]; intros n; simpl.
  - exists []. repeat split; constructor.
  - destruct (file_outcome cfg ts strm (key f)) as [m | e] eqn:Hf; simpl.
    + destruct (IH (n + m)%nat) as (remaining & Hsplit & Hok & Hrem).
      exists remaining. split; [by rewrite <- Hsplit |].
      split; [| done]. constructor; [by rewrite Hf | done].
    + exists (f :: files). split; [done |]. split; [constructor |].
      exists e. by rewrite Hf.
Qed.

(** C1: in every run of the orchestrator over the files that discovery
    returned, the sorted files split into the completed files, on each of
    which the file sync unit returns, and the remaining ones, which are none
    when the run returns and start with the file whose exception the run
    raises otherwise. The progress events are, for each completed file in
    turn, the start of the file and then the whole state going out, before
    the next file starts; that state is the state before the run with the
    ISO form of the file's modification time as the [modified_since]
    bookmark of the table, so the bookmarks that went out are, in order, the
    ISO forms of the modification times of the completed files. These files
    come in ascending modification time, so the bookmark never decreases from
    one completion to the next, and it never falls below the watermark when
    discovery returns no file older than the watermark. The state the run
    leaves is the last one that went out. *)
Theorem sync_stream_bookmarks cfg ts strm s table_name modified_since files r s' t :
  table_name_of cfg ts = Ok table_name →
  resolve_modified_since cfg (st_state s) table_name = Ok modified_since →
  get_input_files_for_table cfg ts modified_since = Ok files →
  sync_stream cfg ts strm s = (r, s', t) →
  ∃ completed_files remaining,
    sorted last_modified files = completed_files ++ remaining ∧
    Forall (λ f, Result.is_ok (file_outcome cfg ts strm (key f)) = true) completed_files ∧
    match remaining with
    | [] => Result.is_ok r = true
    | f :: _ => ∃ e, file_outcome cfg ts strm (key f) = Raise e ∧ r = Raise e
    end ∧
    progress t
    = flat_map (λ f, [LogInfo (SyncingFile (key f));
                      WriteState (write_bookmark (st_state s) table_name "modified_since"
                                    (isoformat (last_modified f)))])
               completed_files
      ++ match remaining with
         | [] => []
         | f :: _ => [LogInfo (SyncingFile (key f))]
         end ∧
    map (λ st, get_bookmark st table_name "modified_since") (persisted t)
    = map (λ f, Some (isoformat (last_modified f))) completed_files ∧
    StronglySorted (key_le last_modified) completed_files ∧
    (Forall (λ f, dt_le modified_since (last_modified f)) files →
     Forall (λ f, dt_le modified_since (last_modified f)) completed_files) ∧
    st_state s' = match last completed_files with
                  | Some f => write_bookmark (st_state s) table_name "modified_since"
                                (isoformat (last_modified f))
                  | None => st_state s
                  end.
Proof.
  intros Hname Hw Hfiles Hrun.
  destruct (sync_stream_run cfg ts strm s table_name modified_since files Hname Hw Hfiles)
    as (s1 & t1 & Hrun1 & Ht1 & Hs1).
  rewrite Hrun in Hrun1. injection Hrun1 as -> -> ->.
  destruct (files_outcome_split cfg ts strm (sorted last_modified files) 0)
    as (remaining & Hsplit & Hok & Hrem).
  exists (completed cfg ts strm (sorted last_modified files)), remaining.
  split; [exact Hsplit |]. split; [exact Hok |].
  split; [| split; [| split; [| split; [| split]]]].
  - destruct remaining as [| f remaining]; [tauto |].
    destruct Hrem as (e & Hf & Hr & _). by exists e.
  - change (progress (_ :: _ :: _ :: t1)) with (progress t1). rewrite Ht1.
    unfold file_progress, bookmarked. f_equal.
    destruct remaining as [| f remaining]; [by destruct Hrem as [_ ->] |].
    by destruct Hrem as (e & _ & _ & ->).
  - change (persisted (_ :: _ :: _ :: t1)) with (persisted t1).
    rewrite <- persisted_progress, Ht1, persisted_file_progress.
    rewrite <- list_fmap_compose. apply list_fmap_ext. intros _ f _. simpl.
    apply get_bookmark_write.
  - apply completed_ascending.
  - intros Hsince. rewrite Forall_forall in Hsince |- *. intros f Hf.
    apply Hsince. rewrite <- (sorted_perm last_modified files), Hsplit.
    apply elem_of_app. by left.
  - exact Hs1.
Qed.

(** C2: when the sorted files are [pre], then [f], then [post], the files of
    [pre] complete and the transformer rejects a row of [f] with [e], the
    orchestrator raises [e]; the states that went out are those of the files
    of [pre], none for [f]; and the state left holds the bookmark of the last
    file of [pre], or is the state before the run when [pre] is empty. *)
Theorem sync_stream_failure cfg ts strm s table_name modified_since files pre f post e :
  table_name_of cfg ts = Ok table_name →
  resolve_modified_since cfg (st_state s) table_name = Ok modified_since →
  get_input_files_for_table cfg ts modified_since = Ok files →
  sorted last_modified files = pre ++ f :: post →
  forallb (λ g, Result.is_ok (file_outcome cfg ts strm (key g))) pre = true →
  transform_failure cfg ts strm (key f) = Some e →
  ∃ s' t,
    sync_stream cfg ts strm s = (Raise e, s', t) ∧
    persisted t = map (bookmarked (st_state s) table_name) pre ∧
    st_state s' = match last pre with
                  | Some g => bookmarked (st_state s) table_name g
                  | None => st_state s
                  end ∧
    get_bookmark (st_state s') table_name "modified_since"
    = match last pre with
      | Some g => Some (isoformat (last_modified g))
      | None => get_bookmark (st_state s) table_name "modified_since"
      end.
Proof.
  intros Hname Hw Hfiles Hsorted Hpre Hf.
  destruct (sync_stream_run cfg ts strm s table_name modified_since files Hname Hw Hfiles)
    as (s' & t & Hrun & Ht & Hs').
  apply transform_failure_outcome in Hf.
  assert (Forall (λ g, Result.is_ok (file_outcome cfg ts strm (key g)) = true) pre)
    as Hpre'.
  { apply Forall_forall. intros g Hg. rewrite forallb_forall in Hpre.
    by apply Hpre, list_elem_of_In. }
  destruct (completed_app cfg ts strm pre f post e Hpre' Hf) as (Hdone & _ & Hout).
  rewrite Hsorted in *. rewrite Hout in Hrun. unfold state_after in Hs'.
  rewrite Hdone in Hs'.
  eexists _, _. split; [exact Hrun |]. split; [| split; [exact Hs' |]].
  - change (persisted (_ :: _ :: _ :: t)) with (persisted t).
    by rewrite <- persisted_progress, Ht, persisted_file_progress, Hdone.
  - rewrite Hs'. destruct (last pre); [apply get_bookmark_write | done].
Qed.

(** C3, amended: the orchestrator invokes the file sync unit on the sorted
    files in turn, up to the first one that fails and on all of them when it
    returns; the sorted files are the discovered files in ascending
    modification time, strictly ascending when no two files share a
    modification time. *)
Theorem sync_stream_order cfg ts strm s table_name modified_since files r s' t :
  table_name_of cfg ts = Ok table_name →
  resolve_modified_since cfg (st_state s) table_name = Ok modified_since →
  get_input_files_for_table cfg ts modified_since = Ok files →
  sync_stream cfg ts strm s = (r, s', t) →
  ∃ attempted,
    invoked t = map key attempted ∧
    attempted `prefix_of` sorted last_modified files ∧
    (Result.is_ok r = true → attempted = sorted last_modified files) ∧
    sorted last_modified files ≡ₚ files ∧
    StronglySorted (key_le last_modified) (sorted last_modified files) ∧
    (NoDup (map (λ f, instant (last_modified f)) files) →
     StronglySorted (key_lt last_modified) (sorted last_modified files)).
Proof.
  intros Hname Hw Hfiles Hrun.
  destruct (sync_stream_run cfg ts strm s table_name modified_since files Hname Hw Hfiles)
    as (s1 & t1 & Hrun1 & Ht1 & _).
  rewrite Hrun in Hrun1. injection Hrun1 as -> -> ->.
  exists (completed cfg ts strm (sorted last_modified files)
          ++ option_list (failed cfg ts strm (sorted last_modified files))).
  split; [| split; [| split; [| split; [| split]]]].
  - change (invoked (_ :: _ :: _ :: t1)) with (invoked t1).
    by rewrite <- invoked_progress, Ht1, invoked_file_progress.
  - apply attempted_prefix.
  - intros Hok. apply completed_all in Hok as [-> ->]. apply app_nil_r.
  - apply sorted_perm.
  - apply sorted_ascending.
  - apply sorted_strict.
Qed.

(** C7: for a file whose rows all pass the transformer, the file sync unit
    returns the number of rows the iterator yields and writes one record per
    row, in order; the record of a row is what the transformer makes of the
    normalized row when the flag of the config is set, and of the row as it is
    otherwise. *)
Theorem sync_table_file_count cfg s3_path ts strm s bucket table_name h rows
    schema mdata recs :
  cfg_bucket cfg = Some bucket →
  table_name_of cfg ts = Ok table_name →
  get_file_handle cfg s3_path = Ok h →
  get_row_iterator (raw_stream h) ts = rows_then rows IterStop →
  stream_schema strm = Some schema →
  stream_metadata strm = Some mdata →
  forallb (λ row, implb (null_flag cfg) (wf_value row && tuple_free row)) rows = true →
  transform_all cfg schema mdata rows = Ok recs →
  ∃ s' t,
    sync_table_file cfg s3_path ts strm s = (Ok (length rows), s', t) ∧
    records t = map (pair table_name) recs ∧
    length (records t) = length rows.
Proof.
  intros Hbucket Hname Hh Hiter Hschema Hmdata Hrows Hrecs.
  rewrite <- (transform_all_rows cfg strm schema mdata rows) in Hrecs by done.
  unfold sync_table_file, info, open_file.
  rewrite bind_emit, bind_lift, Hbucket. simpl.
  rewrite bind_lift, Hname. rewrite bind_run, bind_emit, bind_lift, Hh.
  cbn [mark_open]. rewrite bind_run. cbn [csv_field_size_limit]. rewrite Hiter.
  match goal with |- context [sync_rows _ _ _ _ ?n ?s1] =>
    destruct (sync_rows_records cfg strm table_name rows recs n s1 Hrecs)
      as (s' & t & -> & Ht)
  end.
  eexists _, _. split; [reflexivity |].
  match goal with |- records ?tr = _ ∧ _ =>
    assert (records tr = map (pair table_name) recs) as Hrec by exact Ht
  end.
  split; [exact Hrec |].
  rewrite Hrec, length_map. by apply mapM_result_length in Hrecs.
Qed.

(** C9, amended: the file sync unit never closes the stream it acquired. On
    every exit, by return or by an exception, the stream is still among the
    open ones. *)
Theorem sync_table_file_keeps_stream_open cfg s3_path ts strm s bucket table_name h
    r s' t :
  cfg_bucket cfg = Some bucket →
  table_name_of cfg ts = Ok table_name →
  get_file_handle cfg s3_path = Ok h →
  sync_table_file cfg s3_path ts strm s = (r, s', t) →
  st_open s' = h :: st_open s.
Proof.
  intros Hbucket Hname Hh Hrun.
  destruct (sync_table_file_run cfg s3_path ts strm s) as (s1 & t1 & Hrun1 & _ & Hopen & _).
  rewrite Hrun in Hrun1. injection Hrun1 as -> -> ->.
  rewrite Hopen. unfold opened_by. by rewrite Hbucket, Hname, Hh.
Qed.

(** C10: when discovery returns no file, the orchestrator returns 0 and
    leaves the store as it was, and no state goes out. *)
Theorem sync_stream_no_files cfg ts strm s table_name modified_since :
  table_name_of cfg ts = Ok table_name →
  resolve_modified_since cfg (st_state s) table_name = Ok modified_since →
  get_input_files_for_table cfg ts modified_since = Ok [] →
  ∃ t, sync_stream cfg ts strm s = (Ok 0%nat, s, t) ∧
       persisted t = [] ∧
       t = [LogInfo (SyncingTable table_name); LogInfo (GettingFiles modified_since);
            ListFiles modified_since; LogInfo (WroteRecords 0 table_name)].
Proof.
  intros Hname Hw Hfiles. eexists. split; [| split; [| reflexivity]]; [| reflexivity].
  unfold sync_stream, info.
  rewrite bind_lift, Hname. rewrite bind_run. cbn [get_state].
  rewrite bind_lift, Hw. rewrite !bind_emit. rewrite bind_run, list_files_run, Hfiles.
  reflexivity.
Qed.

(** C8, amended: the watermark is parsed from the [modified_since] bookmark of
    the table when the state has one that is not empty, and from the start
    date of the config otherwise; the orchestrator logs it and asks discovery
    for the files modified since. *)
Theorem sync_stream_watermark cfg ts strm s table_name text modified_since :
  table_name_of cfg ts = Ok table_name →
  watermark_text cfg (st_state s) table_name = Some text →
  strptime_with_tz text = Ok modified_since →
  ∃ r s' t,
    sync_stream cfg ts strm s
    = (r, s', LogInfo (SyncingTable table_name) :: LogInfo (GettingFiles modified_since)
                :: ListFiles modified_since :: t).
Proof.
  intros Hname Htext Hparse.
  pose proof (resolve_watermark_text cfg (st_state s) table_name text Htext) as Hw.
  rewrite Hparse in Hw.
  destruct (get_input_files_for_table cfg ts modified_since) as [files | e] eqn:Hfiles.
  - destruct (sync_stream_run cfg ts strm s table_name modified_since files Hname Hw Hfiles)
      as (s' & t & Hrun & _). by eexists _, _, _.
  - unfold sync_stream, info.
    rewrite bind_lift, Hname. rewrite bind_run. cbn [get_state].
    rewrite bind_lift, Hw. rewrite !bind_emit. rewrite bind_run, list_files_run, Hfiles.
    by eexists _, _, _.
Qed.

End SyncFacts.

(** ** The properties at work in the small world *)

(** C1 on the scenario of the specification: the January file completes, its
    state goes out, then the February file, then its state. *)
Lemma sync_stream_bookmarks_witness :
  ∃ completed_files remaining,
    sorted last_modified [Demo.feb_file; Demo.jan_file] = completed_files ++ remaining ∧
    Forall (λ f, Result.is_ok (file_outcome (H := Demo.env) (Demo.cfg true) Demo.orders
                                 Demo.people (key f)) = true) completed_files ∧
    match remaining with
    | [] => Result.is_ok Demo.nightly.1.1 = true
    | f :: _ => ∃ e, file_outcome (H := Demo.env) (Demo.cfg true) Demo.orders Demo.people
                       (key f) = Raise e ∧ Demo.nightly.1.1 = Raise e
    end ∧
    progress Demo.nightly.2
    = flat_map (λ f, [LogInfo (SyncingFile (key f));
                      WriteState (write_bookmark ∅ "orders" "modified_since"
                                    (Demo.format_date Demo.calendar (last_modified f)))])
               completed_files
      ++ match remaining with
         | [] => []
         | f :: _ => [LogInfo (SyncingFile (key f))]
         end ∧
    map (λ st, get_bookmark st "orders" "modified_since") (persisted Demo.nightly.2)
    = map (λ f, Some (Demo.format_date Demo.calendar (last_modified f))) completed_files ∧
    StronglySorted (key_le last_modified) completed_files ∧
    (Forall (λ f, dt_le Demo.jan01 (last_modified f)) [Demo.feb_file; Demo.jan_file] →
     Forall (λ f, dt_le Demo.jan01 (last_modified f)) completed_files) ∧
    st_state Demo.nightly.1.2
    = match last completed_files with
      | Some f => write_bookmark ∅ "orders" "modified_since"
                    (Demo.format_date Demo.calendar (last_modified f))
      | None => ∅
      end.
Proof.
  apply (@sync_stream_bookmarks Demo.env (Demo.cfg true) Demo.orders Demo.people
           (Demo.fresh ∅) "orders" Demo.jan01 [Demo.feb_file; Demo.jan_file]
           Demo.nightly.1.1 Demo.nightly.1.2 Demo.nightly.2).
  - reflexivity.
  - reflexivity.
  - reflexivity.
  - vm_compute. reflexivity.
Defined.

(** C2 with the flag off: the January file completes, the transformer rejects
    the blank age in the February file, and the bookmark stays at January. *)
Lemma sync_stream_failure_witness :
  ∃ s' t,
    Demo.unnormalized = (Raise (SchemaError "does not match the schema"), s', t) ∧
    persisted t = map (bookmarked (H := Demo.env) ∅ "orders") [Demo.jan_file] ∧
    st_state s' = bookmarked (H := Demo.env) ∅ "orders" Demo.jan_file ∧
    get_bookmark (st_state s') "orders" "modified_since"
    = Some "2023-01-15T00:00:00+00:00".
Proof.
  apply (@sync_stream_failure Demo.env (Demo.cfg false) Demo.orders Demo.people
           (Demo.fresh ∅) "orders" Demo.jan01 [Demo.feb_file; Demo.jan_file]
           [Demo.jan_file] Demo.feb_file [] (SchemaError "does not match the schema"));
    reflexivity.
Defined.

(** C3 on the scenario: discovery lists February first, the orchestrator
    takes January first. *)
Lemma sync_stream_order_witness :
  ∃ attempted,
    invoked Demo.nightly.2 = map key attempted ∧
    attempted `prefix_of` sorted last_modified [Demo.feb_file; Demo.jan_file] ∧
    (Result.is_ok Demo.nightly.1.1 = true
     → attempted = sorted last_modified [Demo.feb_file; Demo.jan_file]) ∧
    sorted last_modified [Demo.feb_file; Demo.jan_file] ≡ₚ [Demo.feb_file; Demo.jan_file] ∧
    StronglySorted (key_le last_modified)
      (sorted last_modified [Demo.feb_file; Demo.jan_file]) ∧
    (NoDup (map (λ f, instant (last_modified f)) [Demo.feb_file; Demo.jan_file]) →
     StronglySorted (key_lt last_modified)
       (sorted last_modified [Demo.feb_file; Demo.jan_file])).
Proof.
  apply (@sync_stream_order Demo.env (Demo.cfg true) Demo.orders Demo.people
           (Demo.fresh ∅) "orders" Demo.jan01 [Demo.feb_file; Demo.jan_file]
           Demo.nightly.1.1 Demo.nightly.1.2 Demo.nightly.2).
  - reflexivity.
  - reflexivity.
  - reflexivity.
  - vm_compute. reflexivity.
Defined.

(** C3 as stated fails on two files of one modification time: the
    orchestrator takes one after the other, and the time of the first is not
    below the time of the second. *)
Lemma sync_stream_order_not_strict :
  get_input_files_for_table (Collaborators := Demo.env) (Demo.cfg true) Demo.ties Demo.jan01
  = Ok [Demo.tie_a; Demo.tie_b] ∧
  invoked Demo.tied.2 = [key Demo.tie_a; key Demo.tie_b] ∧
  ¬ key_lt last_modified Demo.tie_a Demo.tie_b.
Proof.
  split; [reflexivity |]. split; [by vm_compute |].
  unfold key_lt, dt_lt. simpl. lia.
Qed.

(** C7 on the February file with the flag set: three rows, three records,
    and the blank age reaches the transformer as null. *)
Lemma sync_table_file_count_witness :
  ∃ s' t,
    sync_table_file (H := Demo.env) (Demo.cfg true) "exports/feb.csv" Demo.orders Demo.people
      (Demo.fresh ∅)
    = (Ok (length Demo.feb_rows), s', t) ∧
    records t
    = map (pair "orders")
        [VDict [("name", VStr "cy"); ("age", VInt 1)];
         VDict [("name", VStr "dee"); ("age", VNone)];
         VDict [("name", VStr "eve"); ("age", VInt 3)]] ∧
    length (records t) = length Demo.feb_rows.
Proof.
  apply (@sync_table_file_count Demo.env (Demo.cfg true) "exports/feb.csv" Demo.orders
           Demo.people (Demo.fresh ∅) "bucket" "orders"
           {| handle_path := "exports/feb.csv"; raw_stream := Demo.feb_csv |}
           Demo.feb_rows
           (VDict [("name", VStr "string"); ("age", VStr "integer")]) (VList []));
    reflexivity.
Defined.

(** C8 on a state with a bookmark: the watermark is the bookmark. *)
Lemma sync_stream_watermark_witness :
  ∃ r s' t,
    @sync_stream Demo.env (Demo.cfg true) Demo.orders Demo.people
      (Demo.fresh (Demo.resumed "2023-01-15T00:00:00+00:00"))
    = (r, s', LogInfo (SyncingTable "orders") :: LogInfo (GettingFiles Demo.jan15)
                :: ListFiles Demo.jan15 :: t).
Proof.
  apply (@sync_stream_watermark Demo.env (Demo.cfg true) Demo.orders Demo.people
           (Demo.fresh (Demo.resumed "2023-01-15T00:00:00+00:00")) "orders"
           "2023-01-15T00:00:00+00:00" Demo.jan15).
  - reflexivity.
  - vm_compute. reflexivity.
  - reflexivity.
Defined.

(** C8 as stated fails on a state whose bookmark is present and empty: the
    bookmark is there, it does not parse, and the orchestrator takes the
    start date of the config. *)
Lemma sync_stream_watermark_empty_bookmark :
  get_bookmark (Demo.resumed "") "orders" "modified_since" = Some "" ∧
  strptime_with_tz (Collaborators := Demo.env) "" = Raise (ValueError "Unknown string format") ∧
  cfg_start_date (Demo.cfg true) = Some "2023-01-01T00:00:00Z" ∧
  strptime_with_tz (Collaborators := Demo.env) "2023-01-01T00:00:00Z" = Ok Demo.jan01 ∧
  ∃ s' t,
    @sync_stream Demo.env (Demo.cfg true) Demo.orders Demo.people
      (Demo.fresh (Demo.resumed ""))
    = (Ok 5%nat, s', LogInfo (SyncingTable "orders") :: LogInfo (GettingFiles Demo.jan01)
                       :: ListFiles Demo.jan01 :: t).
Proof.
  split; [by vm_compute |]. repeat split.
  eexists _, _. vm_compute. reflexivity.
Qed.

(** C9 on the February file with the flag off: the file sync unit raises and
    the stream stays open. *)
Lemma sync_table_file_keeps_stream_open_witness :
  st_open (sync_table_file (H := Demo.env) (Demo.cfg false) "exports/feb.csv" Demo.orders
             Demo.people (Demo.fresh ∅)).1.2
  = {| handle_path := "exports/feb.csv"; raw_stream := Demo.feb_csv |}
    :: st_open (Demo.fresh ∅).
Proof.
  eapply (@sync_table_file_keeps_stream_open Demo.env (Demo.cfg false) "exports/feb.csv"
            Demo.orders Demo.people (Demo.fresh ∅) "bucket" "orders").
  - reflexivity.
  - reflexivity.
  - reflexivity.
  - vm_compute. reflexivity.
Defined.

(** C9 as stated fails: after the file sync unit returns from the January
    file, and after it raises on the February file, the stream it acquired is
    still open. *)
Lemma sync_table_file_leaves_stream_open :
  let returned := sync_table_file (H := Demo.env) (Demo.cfg false) "exports/jan.csv"
                    Demo.orders Demo.people (Demo.fresh ∅) in
  let raised := sync_table_file (H := Demo.env) (Demo.cfg false) "exports/feb.csv"
                  Demo.orders Demo.people (Demo.fresh ∅) in
  st_open (Demo.fresh ∅) = [] ∧
  returned.1.1 = Ok 2%nat ∧
  st_open returned.1.2
  = [{| handle_path := "exports/jan.csv"; raw_stream := Demo.jan_csv |}] ∧
  raised.1.1 = Raise (SchemaError "does not match the schema") ∧
  st_open raised.1.2
  = [{| handle_path := "exports/feb.csv"; raw_stream := Demo.feb_csv |}].
Proof. repeat split. Qed.

(** C10 on a state whose bookmark is the time of the last file: discovery
    has nothing newer. *)
Lemma sync_stream_no_files_witness :
  ∃ t,
    @sync_stream Demo.env (Demo.cfg true) Demo.orders Demo.people
      (Demo.fresh (Demo.resumed "2023-02-01T00:00:00+00:00"))
    = (Ok 0%nat, Demo.fresh (Demo.resumed "2023-02-01T00:00:00+00:00"), t) ∧
    persisted t = [] ∧
    t = [LogInfo (SyncingTable "orders"); LogInfo (GettingFiles Demo.feb01);
         ListFiles Demo.feb01; LogInfo (WroteRecords 0 "orders")].
Proof.
  apply (@sync_stream_no_files Demo.env (Demo.cfg true) Demo.orders Demo.people
           (Demo.fresh (Demo.resumed "2023-02-01T00:00:00+00:00")) "orders" Demo.feb01).
  - reflexivity.
  - vm_compute. reflexivity.
  - reflexivity.
Defined.

(** The end-to-end scenario of the specification: five records, January
    before February, and the bookmark of February at the end. *)
Example scenario_end_to_end :
  Demo.nightly.1.1 = Ok 5%nat ∧
  invoked Demo.nightly.2 = ["exports/jan.csv"; "exports/feb.csv"] ∧
  get_bookmark (st_state Demo.nightly.1.2) "orders" "modified_since"
  = Some "2023-02-01T00:00:00+00:00".
Proof. by vm_compute. Qed.

(** The nested example of the specification. *)
Example normalize_nested :
  set_empty_values_null
    (VDict [("a", VStr ""); ("b", VList [VStr " "; VStr "x"; VDict [("c", VStr "")]])])
  = Ok (VDict [("a", VNone); ("b", VList [VNone; VStr "x"; VDict [("c", VNone)]])]).
Proof. reflexivity. Qed.

(** ** Further properties of the sync layer *)

Section More.
Context `{Collaborators}.
Implicit Types (cfg : config) (ts : table_spec) (strm : stream) (s : store).

(** On a well-formed value in which every tuple is empty, the code returns
    the deep copy the specification describes: blank strings replaced by
    null, everything else as it was. *)
Theorem set_empty_values_null_refines_normalize (v : value) :
  wf_value v = true → tuple_free v = true →
  set_empty_values_null v = Ok (normalize v).
Proof. apply set_empty_values_null_normalize. Qed.

(** On a value that holds a non-empty tuple, at any depth, the code raises
    and returns nothing. *)
Theorem set_empty_values_null_raises_on_tuples (v : value) :
  tuple_free v = false → ∃ e, set_empty_values_null v = Raise e.
Proof.
  intros Htf. apply set_empty_values_null_tuple_raises in Htf.
  destruct (set_empty_values_null v) as [r | e]; [done | by exists e].
Qed.

(** Files with one modification time are processed in the order in which
    discovery returned them: when [f] comes before [g] in the listing and
    both have one modification time, a run that returns invokes the file sync
    unit on [f] and later on [g]; and in any run over a listing without two
    files of one key, wherever the unit is invoked on [g] it was invoked on
    [f] before. *)
Theorem sync_stream_ties_in_listing_order cfg ts strm s table_name modified_since files
    l1 f l2 g l3 r s' t :
  table_name_of cfg ts = Ok table_name →
  resolve_modified_since cfg (st_state s) table_name = Ok modified_since →
  get_input_files_for_table cfg ts modified_since = Ok files →
  files = l1 ++ f :: l2 ++ g :: l3 →
  instant (last_modified f) = instant (last_modified g) →
  sync_stream cfg ts strm s = (r, s', t) →
  (Result.is_ok r = true → ∃ a b c, invoked t = a ++ key f :: b ++ key g :: c) ∧
  (NoDup (map key files) → ∀ a b, invoked t = a ++ key g :: b → key f ∈ a).
Proof.
  intros Hname Hw Hfiles Hlisting Htie Hrun.
  destruct (sync_stream_run cfg ts strm s table_name modified_since files Hname Hw Hfiles)
    as (s1 & t1 & Hrun1 & Ht1 & _).
  rewrite Hrun in Hrun1. injection Hrun1 as -> -> ->.
  change (invoked (_ :: _ :: _ :: t1)) with (invoked t1).
  rewrite <- invoked_progress, Ht1, invoked_file_progress.
  destruct (sorted_keeps_ties last_modified files l1 f l2 g l3 Hlisting Htie)
    as (k1 & k2 & k3 & Hsorted).
  split.
  - intros Hok. apply completed_all in Hok as [-> ->]. rewrite app_nil_r, Hsorted.
    exists (map key k1), (map key k2), (map key k3).
    by rewrite !map_app; simpl; rewrite map_app.
  - intros Hnd a b Hinvoked.
    destruct (attempted_prefix cfg ts strm (sorted last_modified files)) as [rest Hrest].
    assert (NoDup (map key (sorted last_modified files))) as Hnd'.
    { assert (map key (sorted last_modified files) ≡ₚ map key files) as Hperm
        by apply Permutation_map, sorted_perm.
      by rewrite Hperm. }
    assert (a = map key k1 ++ key f :: map key k2) as ->.
    { apply (NoDup_middle (map key (sorted last_modified files)) _
               (b ++ map key rest) _ (map key k3) (key g) Hnd').
      - rewrite Hrest at 1. rewrite map_app, Hinvoked, <- app_assoc. done.
      - rewrite Hsorted. rewrite !map_app. simpl. rewrite map_app, <- app_assoc. done. }
    apply elem_of_app. right. apply list_elem_of_here.
Qed.

(** The file sync unit never touches the state: whatever it does, the
    bookmarks are as they were. *)
Theorem sync_table_file_keeps_state cfg s3_path ts strm s r s' t :
  sync_table_file cfg s3_path ts strm s = (r, s', t) →
  st_state s' = st_state s ∧ persisted t = [].
Proof.
  intros Hrun.
  destruct (sync_table_file_run cfg s3_path ts strm s) as (s1 & t1 & Hrun1 & Hst & _ & Ht).
  rewrite Hrun in Hrun1. injection Hrun1 as -> -> ->.
  split; [done |]. by rewrite <- persisted_progress, Ht.
Qed.

(** Whatever makes a file fail (a missing config entry, the fetch, a
    malformed row, the normalizer, the transformer), the orchestrator raises
    that exception, and the bookmark stays at the last file that
    completed. *)
Theorem sync_stream_any_failure cfg ts strm s table_name modified_since files pre f post e :
  table_name_of cfg ts = Ok table_name →
  resolve_modified_since cfg (st_state s) table_name = Ok modified_since →
  get_input_files_for_table cfg ts modified_since = Ok files →
  sorted last_modified files = pre ++ f :: post →
  forallb (λ g, Result.is_ok (file_outcome cfg ts strm (key g))) pre = true →
  file_outcome cfg ts strm (key f) = Raise e →
  ∃ s' t,
    sync_stream cfg ts strm s = (Raise e, s', t) ∧
    persisted t = map (bookmarked (st_state s) table_name) pre ∧
    invoked t = map key (pre ++ [f]) ∧
    st_state s' = match last pre with
                  | Some g => bookmarked (st_state s) table_name g
                  | None => st_state s
                  end.
Proof.
  intros Hname Hw Hfiles Hsorted Hpre Hf.
  destruct (sync_stream_run cfg ts strm s table_name modified_since files Hname Hw Hfiles)
    as (s' & t & Hrun & Ht & Hs').
  assert (Forall (λ g, Result.is_ok (file_outcome cfg ts strm (key g)) = true) pre)
    as Hpre'.
  { apply Forall_forall. intros g Hg. rewrite forallb_forall in Hpre.
    by apply Hpre, list_elem_of_In. }
  destruct (completed_app cfg ts strm pre f post e Hpre' Hf) as (Hdone & Hfailed & Hout).
  rewrite Hsorted in *. rewrite Hout in Hrun. unfold state_after in Hs'.
  rewrite Hdone in Hs'.
  eexists _, _. split; [exact Hrun |]. split; [| split; [| exact Hs']].
  - change (persisted (_ :: _ :: _ :: t)) with (persisted t).
    by rewrite <- persisted_progress, Ht, persisted_file_progress, Hdone.
  - change (invoked (_ :: _ :: _ :: t)) with (invoked t).
    by rewrite <- invoked_progress, Ht, invoked_file_progress, Hdone, Hfailed.
Qed.

(** When discovery keeps its contract and returns only files modified after
    the watermark, every bookmark a run writes is the time of a file modified
    after the watermark: the bookmark does not fall below where the run
    started. *)
Theorem sync_stream_above_watermark cfg ts strm s table_name modified_since files r s' t :
  table_name_of cfg ts = Ok table_name →
  resolve_modified_since cfg (st_state s) table_name = Ok modified_since →
  get_input_files_for_table cfg ts modified_since = Ok files →
  Forall (λ f, dt_lt modified_since (last_modified f)) files →
  sync_stream cfg ts strm s = (r, s', t) →
  Forall (λ st, ∃ f, st = bookmarked (st_state s) table_name f ∧
                     dt_lt modified_since (last_modified f))
         (persisted t).
Proof.
  intros Hname Hw Hfiles Hafter Hrun.
  destruct (sync_stream_run cfg ts strm s table_name modified_since files Hname Hw Hfiles)
    as (s1 & t1 & Hrun1 & Ht1 & _).
  rewrite Hrun in Hrun1. injection Hrun1 as -> -> ->.
  change (persisted (_ :: _ :: _ :: t1)) with (persisted t1).
  rewrite <- persisted_progress, Ht1, persisted_file_progress.
  apply Forall_forall. intros st Hst.
  apply list_elem_of_In, in_map_iff in Hst as (f & <- & Hf). exists f. split; [done |].
  apply list_elem_of_In in Hf.
  destruct (completed_prefix cfg ts strm (sorted last_modified files)) as [rest Hrest].
  assert (f ∈ sorted last_modified files) as Hin by (rewrite Hrest; set_solver).
  rewrite (sorted_perm last_modified files) in Hin.
  rewrite Forall_forall in Hafter. by apply Hafter.
Qed.

End More.

Lemma set_empty_values_null_refines_normalize_witness :
  set_empty_values_null
    (VDict [("a", VStr ""); ("b", VList [VStr " "; VStr "x"; VDict [("c", VStr "")]])])
  = Ok (normalize
          (VDict [("a", VStr ""); ("b", VList [VStr " "; VStr "x"; VDict [("c", VStr "")]])])).
Proof.
  apply set_empty_values_null_refines_normalize; vm_compute; reflexivity.
Defined.

Lemma set_empty_values_null_raises_on_tuples_witness :
  ∃ e, set_empty_values_null (VDict [("k", VList [VTuple [VStr " "]])]) = Raise e.
Proof.
  apply (set_empty_values_null_raises_on_tuples (VDict [("k", VList [VTuple [VStr " "]])])).
  reflexivity.
Defined.

(** The two files of one time, listed [ties/a.csv] first: it is synced
    first. *)
Lemma sync_stream_ties_in_listing_order_witness :
  (Result.is_ok Demo.tied.1.1 = true →
   ∃ a b c, invoked Demo.tied.2 = a ++ "ties/a.csv" :: b ++ "ties/b.csv" :: c) ∧
  (NoDup (map key [Demo.tie_a; Demo.tie_b]) →
   ∀ a b, invoked Demo.tied.2 = a ++ "ties/b.csv" :: b → "ties/a.csv" ∈ a).
Proof.
  apply (@sync_stream_ties_in_listing_order Demo.env (Demo.cfg true) Demo.ties Demo.people
           (Demo.fresh ∅) "ties" Demo.jan01 [Demo.tie_a; Demo.tie_b]
           [] Demo.tie_a [] Demo.tie_b [] Demo.tied.1.1 Demo.tied.1.2 Demo.tied.2).
  - reflexivity.
  - reflexivity.
  - reflexivity.
  - reflexivity.
  - reflexivity.
  - vm_compute. reflexivity.
Defined.

Lemma sync_table_file_keeps_state_witness :
  st_state (sync_table_file (H := Demo.env) (Demo.cfg true) "exports/jan.csv" Demo.orders
              Demo.people (Demo.fresh (Demo.resumed "2023-01-01T00:00:00Z"))).1.2
  = st_state (Demo.fresh (Demo.resumed "2023-01-01T00:00:00Z")) ∧
  persisted (sync_table_file (H := Demo.env) (Demo.cfg true) "exports/jan.csv" Demo.orders
               Demo.people (Demo.fresh (Demo.resumed "2023-01-01T00:00:00Z"))).2 = [].
Proof.
  apply (@sync_table_file_keeps_state Demo.env (Demo.cfg true) "exports/jan.csv"
           Demo.orders Demo.people (Demo.fresh (Demo.resumed "2023-01-01T00:00:00Z"))
           (sync_table_file (H := Demo.env) (Demo.cfg true) "exports/jan.csv" Demo.orders
              Demo.people (Demo.fresh (Demo.resumed "2023-01-01T00:00:00Z"))).1.1).
  vm_compute. reflexivity.
Defined.

Lemma sync_stream_any_failure_witness :
  ∃ s' t,
    @sync_stream Demo.env (Demo.cfg false) Demo.orders Demo.people (Demo.fresh ∅)
    = (Raise (SchemaError "does not match the schema"), s', t) ∧
    persisted t = map (bookmarked (H := Demo.env) ∅ "orders") [Demo.jan_file] ∧
    invoked t = ["exports/jan.csv"; "exports/feb.csv"] ∧
    st_state s' = bookmarked (H := Demo.env) ∅ "orders" Demo.jan_file.
Proof.
  apply (@sync_stream_any_failure Demo.env (Demo.cfg false) Demo.orders Demo.people
           (Demo.fresh ∅) "orders" Demo.jan01 [Demo.feb_file; Demo.jan_file]
           [Demo.jan_file] Demo.feb_file [] (SchemaError "does not match the schema"));
    reflexivity.
Defined.

Lemma sync_stream_above_watermark_witness :
  Forall (λ st, ∃ f, st = bookmarked (H := Demo.env) ∅ "orders" f ∧
                     dt_lt Demo.jan01 (last_modified f))
         (persisted Demo.nightly.2).
Proof.
  apply (@sync_stream_above_watermark Demo.env (Demo.cfg true) Demo.orders Demo.people
           (Demo.fresh ∅) "orders" Demo.jan01 [Demo.feb_file; Demo.jan_file]
           Demo.nightly.1.1 Demo.nightly.1.2 Demo.nightly.2).
  - reflexivity.
  - reflexivity.
  - reflexivity.
  - repeat constructor.
  - vm_compute. reflexivity.
Defined.

(** * More properties *)

(** ** More on the null normalizer *)

Section NormalizerMore.
Implicit Types (v r : value) (f : value → result value).

(** The list loop assigns within bounds, so it fails only where [f] does. *)
Lemma scrub_elements_list_error f (E : exn) i todo ret e :
  Forall (λ x, ∀ e', f x = Raise e' → e' = E) todo →
  (i + length todo = length ret)%nat →
  scrub_elements list_setitem f i todo ret = Raise e → e = E.
Proof.
  revert i ret. induction todo as [| x todo IH]; intros i ret Hf Hlen; [done |].
  apply Forall_cons in Hf as [Hx Hf]. simpl.
  destruct (f x) as [x' | e'] eqn:Hfx; simpl.
  - unfold list_setitem. rewrite decide_True by (simpl in Hlen; lia). simpl.
    apply IH; [done |]. rewrite length_insert. simpl in Hlen. lia.
  - intros [= <-]. by apply Hx.
Qed.

Lemma scrub_elements_tuple_error f (E : exn) i todo ret e :
  Forall (λ x, ∀ e', f x = Raise e' → e' = E) todo →
  E = tuple_error →
  scrub_elements tuple_setitem f i todo ret = Raise e → e = E.
Proof.
  intros Hf ->. destruct todo as [| x todo]; [done |].
  apply Forall_cons in Hf as [Hx _]. simpl.
  destruct (f x) as [x' | e'] eqn:Hfx; simpl.
  - by intros [= <-].
  - intros [= <-]. by apply Hx.
Qed.

Lemma scrub_entries_error f (E : exn) todo ret e :
  Forall (λ kv, ∀ e', f kv.2 = Raise e' → e' = E) todo →
  scrub_entries f todo ret = Raise e → e = E.
Proof.
  revert ret. induction todo as [| [k x] todo IH]; intros ret Hf; [done |].
  apply Forall_cons in Hf as [Hx Hf]. simpl in *.
  destruct (f x) as [x' | e'] eqn:Hfx; simpl.
  - by apply IH.
  - intros [= <-]. by apply Hx.
Qed.

(** The normalizer raises nothing but the [TypeError] of the assignment to a
    tuple: no [IndexError] from the list loop, no [KeyError] from the dict
    loop. *)
Theorem set_empty_values_null_only_type_error v e :
  set_empty_values_null v = Raise e → e = tuple_error.
Proof.
  revert e.
  induction v as [| b | n | s | items IH | items IH | entries IH] using value_ind_nested;
    intros e.
  - by rewrite (set_empty_values_null_scalar VNone).
  - by rewrite (set_empty_values_null_scalar (VBool b)).
  - by rewrite (set_empty_values_null_scalar (VInt n)).
  - by rewrite set_empty_values_null_str.
  - rewrite set_empty_values_null_list.
    destruct (scrub_elements _ _ _ _ _) as [r | e'] eqn:Hloop; [done |].
    intros [= <-].
    eapply (scrub_elements_list_error _ _ 0 items items); [exact IH | done | exact Hloop].
  - rewrite set_empty_values_null_tuple.
    destruct (scrub_elements _ _ _ _ _) as [r | e'] eqn:Hloop; [done |].
    intros [= <-].
    eapply (scrub_elements_tuple_error _ _ 0 items items); [exact IH | done | exact Hloop].
  - rewrite set_empty_values_null_dict.
    destruct (scrub_entries _ _ _) as [r | e'] eqn:Hloop; [done |].
    intros [= <-].
    eapply (scrub_entries_error _ _ entries entries); [exact IH | exact Hloop].
Qed.

(** The specification's normalizer leaves no blank string, and leaves a value
    as it is exactly when the value has none. *)
Lemma normalize_blank_free v : blank_free (normalize v) = true.
Proof.
  induction v as [| b | n | s | items IH | items IH | entries IH] using value_ind_nested;
    try done.
  - simpl. by destruct (PyStr.all_whitespace s) eqn:Hs; simpl; rewrite ?Hs.
  - simpl. induction IH as [| x items Hx _ IH']; [done |]. simpl. by rewrite Hx, IH'.
  - simpl. induction IH as [| x items Hx _ IH']; [done |]. simpl. by rewrite Hx, IH'.
  - simpl. induction IH as [| x items Hx _ IH']; [done |]. simpl. by rewrite Hx, IH'.
Qed.

Lemma normalize_unchanged v : blank_free v = true → normalize v = v.
Proof.
  induction v as [| b | n | s | items IH | items IH | entries IH] using value_ind_nested;
    try done; simpl; intros Hv.
  - by destruct (PyStr.all_whitespace s).
  - f_equal. induction IH as [| x items Hx _ IH']; [done |]. simpl in *.
    apply andb_prop in Hv as [Hv1 Hv2]. by rewrite Hx, IH'.
  - f_equal. induction IH as [| x items Hx _ IH']; [done |]. simpl in *.
    apply andb_prop in Hv as [Hv1 Hv2]. by rewrite Hx, IH'.
  - f_equal. induction IH as [| [k x] items Hx _ IH']; [done |]. simpl in *.
    apply andb_prop in Hv as [Hv1 Hv2]. by rewrite Hx, IH'.
Qed.

(** What the normalizer returns holds no blank string any more. *)
Theorem set_empty_values_null_result_blank_free v r :
  wf_value v = true → set_empty_values_null v = Ok r → blank_free r = true.
Proof.
  intros Hwf Hr. destruct (tuple_free v) eqn:Htf.
  - rewrite set_empty_values_null_normalize in Hr by done. injection Hr as <-.
    apply normalize_blank_free.
  - apply set_empty_values_null_tuple_raises in Htf. by rewrite Hr in Htf.
Qed.

(** The normalizer returns its argument unchanged exactly when the argument
    holds no blank string. *)
Theorem set_empty_values_null_unchanged_iff v :
  wf_value v = true → tuple_free v = true →
  set_empty_values_null v = Ok v ↔ blank_free v = true.
Proof.
  intros Hwf Htf. rewrite set_empty_values_null_normalize by done. split.
  - intros [= Hv]. rewrite <- Hv. apply normalize_blank_free.
  - intros Hv. by rewrite normalize_unchanged.
Qed.

Lemma dict_setitem_keys k x (d : list (string * value)) :
  k ∈ d.*1 → (dict_setitem k x d).*1 = d.*1.
Proof.
  induction d as [| [k' x'] d IH]; simpl; [by intros ?%elem_of_nil |].
  intros Hk. destruct (decide (k = k')) as [-> | Hne]; [done |]. simpl.
  f_equal. apply IH. apply elem_of_cons in Hk as [? | ?]; done.
Qed.

Lemma scrub_entries_keys f todo ret (out : list (string * value)) :
  todo.*1 ⊆ ret.*1 →
  scrub_entries f todo ret = Ok out → out.*1 = ret.*1.
Proof.
  revert ret. induction todo as [| [k x] todo IH]; intros ret Hsub; simpl.
  - by intros [= <-].
  - destruct (f x) as [x' |]; [| done]. simpl. intros Hr.
    assert (k ∈ ret.*1) as Hk by (apply Hsub; simpl; left).
    rewrite (IH (dict_setitem k x' ret)); [by apply dict_setitem_keys | | done].
    rewrite dict_setitem_keys by done. intros k' Hk'. apply Hsub. simpl. by right.
Qed.

Lemma scrub_elements_list_length f i todo ret (out : list value) :
  scrub_elements list_setitem f i todo ret = Ok out → length out = length ret.
Proof.
  revert i ret. induction todo as [| x todo IH]; intros i ret; simpl.
  - by intros [= <-].
  - destruct (f x) as [x' |]; [| done]. simpl. unfold list_setitem.
    destruct (decide _); [| done]. simpl. intros Hr.
    rewrite (IH _ _ Hr). apply length_insert.
Qed.

(** The normalizer never replaces a container by null, not an empty one and
    not one whose elements are all blank: a list keeps its length, a dict its
    keys in their order, and a scalar is returned as it is or as null. *)
Theorem set_empty_values_null_keeps_container v r :
  set_empty_values_null v = Ok r → same_container v r.
Proof.
  destruct v as [| b | n | s | items | items | entries].
  - rewrite (set_empty_values_null_scalar VNone) by done. intros [= <-]. by left.
  - rewrite (set_empty_values_null_scalar (VBool b)) by done. intros [= <-]. by right.
  - rewrite (set_empty_values_null_scalar (VInt n)) by done. intros [= <-]. by right.
  - rewrite set_empty_values_null_str. intros [= <-].
    destruct (PyStr.all_whitespace s); [by left | by right].
  - rewrite set_empty_values_null_list.
    destruct (scrub_elements _ _ _ _ _) as [items' |] eqn:Hloop; [| done].
    intros [= <-]. simpl. by eapply scrub_elements_list_length.
  - rewrite set_empty_values_null_tuple. destruct items as [| x items].
    + by intros [= <-].
    + pose proof (scrub_elements_tuple_raises set_empty_values_null x items (x :: items)).
      by destruct (scrub_elements _ _ _ _ _).
  - rewrite set_empty_values_null_dict.
    destruct (scrub_entries _ _ _) as [entries' |] eqn:Hloop; [| done].
    intros [= <-]. simpl. by eapply scrub_entries_keys.
Qed.

End NormalizerMore.

Lemma set_empty_values_null_result_blank_free_witness :
  blank_free (VDict [("a", VNone); ("b", VList [VNone; VStr "x"])]) = true.
Proof.
  apply (set_empty_values_null_result_blank_free
           (VDict [("a", VStr " "); ("b", VList [VStr ""; VStr "x"])])); reflexivity.
Defined.

Lemma set_empty_values_null_unchanged_iff_witness :
  set_empty_values_null (VDict [("name", VStr "ann"); ("age", VStr "5")])
  = Ok (VDict [("name", VStr "ann"); ("age", VStr "5")])
  ↔ blank_free (VDict [("name", VStr "ann"); ("age", VStr "5")]) = true.
Proof.
  apply (set_empty_values_null_unchanged_iff
           (VDict [("name", VStr "ann"); ("age", VStr "5")])); reflexivity.
Defined.

Lemma set_empty_values_null_keeps_container_witness :
  same_container (VList [VStr ""; VStr " "]) (VList [VNone; VNone]).
Proof.
  apply (set_empty_values_null_keeps_container (VList [VStr ""; VStr " "])). reflexivity.
Defined.

Lemma set_empty_values_null_only_type_error_witness :
  TypeError "'tuple' object does not support item assignment" = tuple_error.
Proof.
  apply (set_empty_values_null_only_type_error
           (VList [VStr "x"; VDict [("k", VTuple [VInt 1; VInt 2])]])).
  reflexivity.
Defined.

(** ** More on the file sync unit *)

Lemma written_app t1 t2 : written (t1 ++ t2) = written t1 ++ written t2.
Proof. apply omap_app. Qed.

Lemma records_written t : records t = (written t).*1.
Proof.
  induction t as [| [| | | |] t IH]; simpl; try done.
  unfold records, written in *. simpl. by f_equal.
Qed.

Section FileMore.
Context `{Collaborators}.
Implicit Types (cfg : config) (ts : table_spec) (strm : stream) (s : store).

(** One row that goes through: the clock is read once, the record goes out
    with that reading, and the loop goes on. *)
Lemma sync_rows_step cfg strm table_name row rest record n s :
  transform_row cfg strm row = Ok record →
  sync_rows cfg strm table_name (IterRow row rest) n s
  = let '(r, s2, t2) := sync_rows cfg strm table_name rest (S n) (advance 1 s) in
    (r, s2, WriteRecord table_name record (now (st_clock s)) :: t2).
Proof.
  intros Hrow. unfold transform_row in Hrow.
  cbn [sync_rows]. rewrite bind_run. cbn [utils_now].
  change {| st_state := st_state s; st_open := st_open s;
            st_field_size_limit := st_field_size_limit s;
            st_clock := S (st_clock s) |} with (advance 1 s).
  assert (∀ prepared : result value,
    (prepared ≫= λ row0,
       Result.getitem "schema" (stream_schema strm) ≫= λ schema,
       Result.getitem "metadata" (stream_metadata strm) ≫= λ mdata,
       transform row0 schema (to_map mdata)) = Ok record →
    (lift prepared ≫= λ row0,
       lift (Result.getitem "schema" (stream_schema strm)) ≫= λ schema,
       lift (Result.getitem "metadata" (stream_metadata strm)) ≫= λ mdata,
       lift (transform row0 schema (to_map mdata)) ≫= λ to_write,
       do_write_record table_name to_write (now (st_clock s)) ≫= λ _,
       sync_rows cfg strm table_name rest (S n)) (advance 1 s)
    = let '(r, s2, t2) := sync_rows cfg strm table_name rest (S n) (advance 1 s) in
      (r, s2, WriteRecord table_name record (now (st_clock s)) :: t2)) as Hbody.
  { intros prepared Hp. run_step. destruct prepared as [row' | e]; [| done].
    cbn [mbind result_bind Result.bind] in Hp.
    run_step. destruct (Result.getitem "schema" _) as [schema | e]; [| done].
    cbn [mbind result_bind Result.bind] in Hp.
    run_step. destruct (Result.getitem "metadata" _) as [mdata | e]; [| done].
    cbn [mbind result_bind Result.bind] in Hp.
    run_step. rewrite Hp. unfold do_write_record. by run_step. }
  destruct (null_flag cfg).
  - rewrite (Hbody _ Hrow). by destruct (sync_rows _ _ _ _ _ _) as [[? ?] ?].
  - change (mret row) with (lift (Ok row)). rewrite (Hbody _ Hrow).
    by destruct (sync_rows _ _ _ _ _ _) as [[? ?] ?].
Qed.

(** One row that does not go through: the clock was read, nothing goes out,
    and the rows after it are not asked for. *)
Lemma sync_rows_stop cfg strm table_name row rest e n s :
  transform_row cfg strm row = Raise e →
  sync_rows cfg strm table_name (IterRow row rest) n s = (Raise e, advance 1 s, []).
Proof.
  intros Hrow. unfold transform_row in Hrow.
  cbn [sync_rows]. rewrite bind_run. cbn [utils_now].
  change {| st_state := st_state s; st_open := st_open s;
            st_field_size_limit := st_field_size_limit s;
            st_clock := S (st_clock s) |} with (advance 1 s).
  assert (∀ prepared : result value,
    (prepared ≫= λ row0,
       Result.getitem "schema" (stream_schema strm) ≫= λ schema,
       Result.getitem "metadata" (stream_metadata strm) ≫= λ mdata,
       transform row0 schema (to_map mdata)) = Raise e →
    (lift prepared ≫= λ row0,
       lift (Result.getitem "schema" (stream_schema strm)) ≫= λ schema,
       lift (Result.getitem "metadata" (stream_metadata strm)) ≫= λ mdata,
       lift (transform row0 schema (to_map mdata)) ≫= λ to_write,
       do_write_record table_name to_write (now (st_clock s)) ≫= λ _,
       sync_rows cfg strm table_name rest (S n)) (advance 1 s)
    = (Raise e, advance 1 s, [])) as Hbody.
  { intros prepared Hp. run_step. destruct prepared as [row' | e']; [| by injection Hp as ->].
    cbn [mbind result_bind Result.bind] in Hp.
    run_step. destruct (Result.getitem "schema" _) as [schema | e'];
      [| by injection Hp as ->].
    cbn [mbind result_bind Result.bind] in Hp.
    run_step. destruct (Result.getitem "metadata" _) as [mdata | e'];
      [| by injection Hp as ->].
    cbn [mbind result_bind Result.bind] in Hp.
    run_step. by rewrite Hp. }
  destruct (null_flag cfg).
  - by rewrite (Hbody _ Hrow).
  - change (mret row) with (lift (Ok row)). by rewrite (Hbody _ Hrow).
Qed.

(** The rows that go through, followed by whatever comes next. *)
Lemma sync_rows_prefix cfg strm table_name good recs ending n s :
  mapM (transform_row cfg strm) good = Ok recs →
  ∃ extra,
    written extra = stamped table_name (st_clock s) recs ∧
    sync_rows cfg strm table_name (rows_then good ending) n s
    = let '(r, s2, t2) :=
        sync_rows cfg strm table_name ending (n + length good) (advance (length good) s) in
      (r, s2, extra ++ t2).
Proof.
  revert recs n s. induction good as [| row good IH]; intros recs n s Hrecs.
  - injection Hrecs as <-. exists []. split; [done |]. simpl. rewrite Nat.add_0_r.
    replace (advance 0 s) with s by (by destruct s).
    by destruct (sync_rows _ _ _ _ _ _) as [[? ?] ?].
  - cbn [mapM] in Hrecs.
    destruct (transform_row cfg strm row) as [record | e] eqn:Hrow; [| done].
    cbn [mbind result_bind Result.bind] in Hrecs.
    destruct (mapM (transform_row cfg strm) good) as [recs' | e] eqn:Hgood; [| done].
    injection Hrecs as <-.
    destruct (IH recs' (S n) (advance 1 s) eq_refl) as (extra & Hextra & Hrun).
    exists (WriteRecord table_name record (now (st_clock s)) :: extra). split.
    + change (written (WriteRecord table_name record (now (st_clock s)) :: extra))
        with ((table_name, record, now (st_clock s)) :: written extra).
      rewrite Hextra. unfold stamped. cbn [imap]. rewrite Nat.add_0_r. f_equal.
      apply imap_ext. intros i x _. cbn. do 2 f_equal. lia.
    + cbn [rows_then]. rewrite (sync_rows_step _ _ _ _ _ record) by done.
      rewrite Hrun.
      replace (advance (length good) (advance 1 s)) with (advance (length (row :: good)) s)
        by (unfold advance; simpl; f_equal; lia).
      replace (S n + length good)%nat with (n + length (row :: good))%nat by (simpl; lia).
      clear Hrun.
      destruct (sync_rows cfg strm table_name ending _ _) as [[r s2] t2]. reflexivity.
Qed.

(** The file sync unit once the stream is there: the row loop, from the
    store with the stream open and the limit lifted. *)
Lemma sync_table_file_fetched cfg s3_path ts strm s bucket table_name h :
  cfg_bucket cfg = Some bucket →
  table_name_of cfg ts = Ok table_name →
  get_file_handle cfg s3_path = Ok h →
  sync_table_file cfg s3_path ts strm s
  = let '(r, s2, t2) :=
      sync_rows cfg strm table_name (get_row_iterator (raw_stream h) ts) 0 (fetched h s) in
    (r, s2, LogInfo (SyncingFile s3_path) :: OpenFile s3_path :: t2).
Proof.
  intros Hbucket Hname Hh. unfold sync_table_file, info, open_file.
  rewrite bind_emit, bind_lift, Hbucket. simpl.
  rewrite bind_lift, Hname. rewrite bind_run, bind_emit, bind_lift, Hh.
  cbn [mark_open]. rewrite bind_run. cbn [csv_field_size_limit].
  change {| st_state := _; st_open := _; st_field_size_limit := _; st_clock := _ |}
    with (fetched h s).
  by destruct (sync_rows _ _ _ _ _ _) as [[? ?] ?].
Qed.

(** Each record goes out with the clock reading taken when its row was
    picked up: the clock is read once per row, and the readings of one file
    are consecutive. *)
Theorem sync_table_file_times cfg s3_path ts strm s bucket table_name h rows recs :
  cfg_bucket cfg = Some bucket →
  table_name_of cfg ts = Ok table_name →
  get_file_handle cfg s3_path = Ok h →
  get_row_iterator (raw_stream h) ts = rows_then rows IterStop →
  mapM (transform_row cfg strm) rows = Ok recs →
  ∃ s' t,
    sync_table_file cfg s3_path ts strm s = (Ok (length rows), s', t) ∧
    written t = stamped table_name (st_clock s) recs ∧
    st_clock s' = (length rows + st_clock s)%nat.
Proof.
  intros Hbucket Hname Hh Hiter Hrecs.
  rewrite (sync_table_file_fetched _ _ _ _ _ bucket table_name h) by done.
  rewrite Hiter.
  destruct (sync_rows_prefix cfg strm table_name rows recs IterStop 0 (fetched h s) Hrecs)
    as (extra & Hextra & ->).
  cbn [sync_rows mret M_ret]. eexists _, _. split; [reflexivity |]. split; [| done].
  change (written (_ :: _ :: ?t)) with (written t).
  by rewrite written_app, Hextra, app_nil_r.
Qed.

(** When a file fails part way, at a malformed row or at a row that is
    rejected, the records of the rows before it have gone out and stay out:
    the unit raises after writing them. *)
Theorem sync_table_file_partial cfg s3_path ts strm s bucket table_name h good recs
    ending e :
  cfg_bucket cfg = Some bucket →
  table_name_of cfg ts = Ok table_name →
  get_file_handle cfg s3_path = Ok h →
  get_row_iterator (raw_stream h) ts = rows_then good ending →
  mapM (transform_row cfg strm) good = Ok recs →
  first_failure cfg strm ending = Some e →
  ∃ s' t,
    sync_table_file cfg s3_path ts strm s = (Raise e, s', t) ∧
    written t = stamped table_name (st_clock s) recs ∧
    length (written t) = length good.
Proof.
  intros Hbucket Hname Hh Hiter Hrecs Hfail.
  rewrite (sync_table_file_fetched _ _ _ _ _ bucket table_name h) by done.
  rewrite Hiter.
  destruct (sync_rows_prefix cfg strm table_name good recs ending 0 (fetched h s) Hrecs)
    as (extra & Hextra & ->).
  assert (∃ s1, sync_rows cfg strm table_name ending (0 + length good)
                  (advance (length good) (fetched h s)) = (Raise e, s1, [])) as [s1 ->].
  { destruct ending as [| row rest | e']; [done | |].
    - simpl in Hfail. destruct (transform_row cfg strm row) as [| e'] eqn:Hrow; [done |].
      injection Hfail as ->. eexists. by apply sync_rows_stop.
    - injection Hfail as ->. by eexists. }
  eexists _, _. split; [reflexivity |].
  assert (written (LogInfo (SyncingFile s3_path) :: OpenFile s3_path :: extra ++ [])
          = stamped table_name (st_clock s) recs) as Hw.
  { change (written (_ :: _ :: ?t)) with (written t).
    by rewrite written_app, Hextra, app_nil_r. }
  split; [exact Hw |]. rewrite Hw. unfold stamped. rewrite length_imap.
  by apply mapM_result_length in Hrecs.
Qed.

(** Once the stream is there, the field size limit of the [csv] module is
    [sys.maxsize] when the unit exits, by return or by an exception. *)
Theorem sync_table_file_field_size_limit cfg s3_path ts strm s bucket table_name h
    r s' t :
  cfg_bucket cfg = Some bucket →
  table_name_of cfg ts = Ok table_name →
  get_file_handle cfg s3_path = Ok h →
  sync_table_file cfg s3_path ts strm s = (r, s', t) →
  st_field_size_limit s' = sys_maxsize.
Proof.
  intros Hbucket Hname Hh.
  rewrite (sync_table_file_fetched _ _ _ _ _ bucket table_name h) by done.
  destruct (sync_rows_run cfg strm table_name (get_row_iterator (raw_stream h) ts) 0
              (fetched h s)) as (s1 & t1 & -> & _ & _ & Hlimit & _).
  by intros [= _ <- _].
Qed.

(** No stream, no change. *)
Lemma sync_table_file_unopened cfg s3_path ts strm s :
  opened_by cfg ts s3_path = [] →
  ∃ e t, sync_table_file cfg s3_path ts strm s = (Raise e, s, t) ∧ records t = [].
Proof.
  unfold opened_by, sync_table_file, info, open_file. intros Hopen.
  rewrite bind_emit, bind_lift.
  destruct (cfg_bucket cfg) as [bucket |]; simpl; [| by eexists _, _].
  rewrite bind_lift. destruct (table_name_of cfg ts) as [table_name | e];
    [| by eexists _, _].
  rewrite bind_run, bind_emit, bind_lift.
  destruct (get_file_handle cfg s3_path) as [h | e]; [done | by eexists _, _].
Qed.

(** A file whose stream the unit does not get (no bucket or table name in
    the config, or a fetch that fails) changes nothing: the unit raises with
    the store as it was and no record written. *)
Theorem sync_table_file_not_opened cfg s3_path ts strm s :
  opened_by cfg ts s3_path = [] →
  ∃ e t, sync_table_file cfg s3_path ts strm s = (Raise e, s, t) ∧ records t = [].
Proof. apply sync_table_file_unopened. Qed.

(** The schema of the stream is looked up row by row: a file without rows
    goes through a stream that has no schema, and a file with rows fails at
    its first row with [KeyError], before any record is written. *)
Theorem sync_table_file_missing_schema cfg s3_path ts strm s bucket table_name h r s' t :
  cfg_bucket cfg = Some bucket →
  table_name_of cfg ts = Ok table_name →
  get_file_handle cfg s3_path = Ok h →
  stream_schema strm = None →
  sync_table_file cfg s3_path ts strm s = (r, s', t) →
  records t = [] ∧
  r = match get_row_iterator (raw_stream h) ts with
      | IterStop => Ok 0%nat
      | IterRaise e => Raise e
      | IterRow row _ =>
          match (if null_flag cfg then set_empty_values_null row else Ok row) with
          | Ok _ => Raise (KeyError "schema")
          | Raise e => Raise e
          end
      end.
Proof.
  intros Hbucket Hname Hh Hschema.
  rewrite (sync_table_file_fetched _ _ _ _ _ bucket table_name h) by done.
  destruct (get_row_iterator (raw_stream h) ts) as [| row rest | e].
  - by intros [= <- <- <-].
  - assert (transform_row cfg strm row
            = match (if null_flag cfg then set_empty_values_null row else Ok row) with
              | Ok _ => Raise (KeyError "schema")
              | Raise e => Raise e
              end) as Hrow.
    { unfold transform_row. rewrite Hschema.
      by destruct (if null_flag cfg then _ else _). }
    destruct (if null_flag cfg then _ else _) as [row' | e];
      rewrite (sync_rows_stop _ _ _ _ _ _ _ _ Hrow); by intros [= <- <- <-].
  - by intros [= <- <- <-].
Qed.

End FileMore.

(** ** More on the orchestrator *)

Section StreamMore.
Context `{Collaborators}.
Implicit Types (cfg : config) (ts : table_spec) (strm : stream) (s : store).

(** The file loop, one file at a time. *)
Lemma sync_files_cons cfg ts strm table_name f files n s :
  sync_files cfg ts strm table_name (f :: files) n s
  = match sync_table_file cfg (key f) ts strm s with
    | (Ok k, s1, t1) =>
        let '(r, s2, t2) :=
          sync_files cfg ts strm table_name files (n + k)
            (set_state (bookmarked (st_state s1) table_name f) s1) in
        (r, s2, t1 ++ WriteState (bookmarked (st_state s1) table_name f) :: t2)
    | (Raise e, s1, t1) => (Raise e, s1, t1)
    end.
Proof.
  cbn [sync_files]. rewrite bind_run.
  destruct (sync_table_file cfg (key f) ts strm s) as [[[k | e] s1] t1]; [| done].
  rewrite bind_run. cbn [do_write_bookmark]. rewrite bind_run. cbn [do_write_state].
  unfold bookmarked. cbn [set_state st_state].
  by destruct (sync_files _ _ _ _ _ _ _) as [[? ?] ?].
Qed.

(** The orchestrator around the file loop. *)
Lemma sync_stream_unfold cfg ts strm s table_name modified_since files :
  table_name_of cfg ts = Ok table_name →
  resolve_modified_since cfg (st_state s) table_name = Ok modified_since →
  get_input_files_for_table cfg ts modified_since = Ok files →
  sync_stream cfg ts strm s
  = match sync_files cfg ts strm table_name (sorted last_modified files) 0 s with
    | (Ok n, s2, t2) =>
        (Ok n, s2,
         LogInfo (SyncingTable table_name) :: LogInfo (GettingFiles modified_since)
           :: ListFiles modified_since :: t2 ++ [LogInfo (WroteRecords n table_name)])
    | (Raise e, s2, t2) =>
        (Raise e, s2,
         LogInfo (SyncingTable table_name) :: LogInfo (GettingFiles modified_since)
           :: ListFiles modified_since :: t2)
    end.
Proof.
  intros Hname Hsince Hfiles. unfold sync_stream, info.
  rewrite bind_lift, Hname. rewrite bind_run. cbn [get_state].
  rewrite bind_lift, Hsince. rewrite !bind_emit. rewrite bind_run, list_files_run.
  rewrite Hfiles. rewrite bind_run.
  destruct (sync_files _ _ _ _ _ _ _) as [[[n | e] s2] t2]; [| done].
  rewrite bind_emit. reflexivity.
Qed.

(** What the row loop, the file sync unit and the file loop keep true of the
    records they write: each is for the table, and a count that is returned
    is the count that came in plus the records written. *)
Lemma sync_rows_records_inv cfg strm table_name iterator n s r s' t :
  sync_rows cfg strm table_name iterator n s = (r, s', t) →
  Forall (λ p, p.1 = table_name) (records t) ∧
  (∀ m, r = Ok m → m = (n + length (records t))%nat).
Proof.
  revert n s r s' t. induction iterator as [| row rest IH | e]; intros n s r s' t.
  - intros [= <- <- <-]. split; [constructor |]. intros m [= <-]. simpl. lia.
  - destruct (transform_row cfg strm row) as [record | e] eqn:Hrow.
    + rewrite (sync_rows_step _ _ _ _ _ record) by done.
      destruct (sync_rows cfg strm table_name rest (S n) (advance 1 s))
        as [[r1 s1] t1] eqn:Hrest.
      intros [= <- <- <-]. destruct (IH _ _ _ _ _ Hrest) as [Hall Hcount]. split.
      * by constructor.
      * intros m Hm. rewrite (Hcount m Hm).
        change (records (_ :: t1)) with ((table_name, record) :: records t1).
        simpl. lia.
    + rewrite (sync_rows_stop _ _ _ _ _ e) by done. intros [= <- <- <-].
      split; [constructor | done].
  - intros [= <- <- <-]. split; [constructor | done].
Qed.

Lemma sync_table_file_records_inv cfg s3_path ts strm s table_name r s' t :
  table_name_of cfg ts = Ok table_name →
  sync_table_file cfg s3_path ts strm s = (r, s', t) →
  Forall (λ p, p.1 = table_name) (records t) ∧
  (∀ k, r = Ok k → k = length (records t)).
Proof.
  intros Hname Hrun. destruct (opened_by cfg ts s3_path) as [| h hs] eqn:Hopen.
  - destruct (sync_table_file_unopened cfg s3_path ts strm s Hopen)
      as (e & t0 & Hrun0 & Ht0).
    rewrite Hrun in Hrun0. injection Hrun0 as -> -> ->. rewrite Ht0.
    split; [constructor | done].
  - unfold opened_by in Hopen. rewrite Hname in Hopen.
    destruct (cfg_bucket cfg) as [bucket |] eqn:Hbucket; [| done].
    destruct (get_file_handle cfg s3_path) as [h' |] eqn:Hh; [| done].
    rewrite (sync_table_file_fetched _ _ _ _ _ bucket table_name h') in Hrun by done.
    destruct (sync_rows _ _ _ _ _ _) as [[r1 s1] t1] eqn:Hrows.
    injection Hrun as <- <- <-.
    change (records (_ :: _ :: t1)) with (records t1).
    destruct (sync_rows_records_inv _ _ _ _ _ _ _ _ _ Hrows) as [Hall Hcount].
    split; [done |]. intros k Hk. by rewrite (Hcount k Hk).
Qed.

Lemma sync_files_records_inv cfg ts strm table_name files n s r s' t :
  table_name_of cfg ts = Ok table_name →
  sync_files cfg ts strm table_name files n s = (r, s', t) →
  Forall (λ p, p.1 = table_name) (records t) ∧
  (∀ m, r = Ok m → m = (n + length (records t))%nat).
Proof.
  intros Hname. revert n s r s' t.
  induction files as [| f files IH]; intros n s r s' t.
  - intros [= <- <- <-]. split; [constructor |]. intros m [= <-]. simpl. lia.
  - rewrite sync_files_cons.
    destruct (sync_table_file cfg (key f) ts strm s) as [[r1 s1] t1] eqn:Hfile.
    destruct (sync_table_file_records_inv _ _ _ _ _ _ _ _ _ Hname Hfile) as [Hall1 Hcount1].
    destruct r1 as [k | e].
    + destruct (sync_files _ _ _ _ _ _ _) as [[r2 s2] t2] eqn:Hrest.
      intros [= <- <- <-]. destruct (IH _ _ _ _ _ Hrest) as [Hall2 Hcount2].
      rewrite records_app.
      change (records (WriteState _ :: t2)) with (records t2). split.
      * by apply Forall_app.
      * intros m Hm. rewrite (Hcount2 m Hm), (Hcount1 k eq_refl), length_app. lia.
    + intros [= <- <- <-]. split; [done | done].
Qed.

(** The count the orchestrator returns is the number of records it wrote,
    and the last thing it does is to log that count. *)
Theorem sync_stream_count cfg ts strm s n s' t :
  sync_stream cfg ts strm s = (Ok n, s', t) →
  length (records t) = n ∧
  ∃ table_name,
    table_name_of cfg ts = Ok table_name ∧
    last t = Some (LogInfo (WroteRecords n table_name)).
Proof.
  intros Hrun.
  destruct (table_name_of cfg ts) as [table_name | e] eqn:Hname.
  2:{ revert Hrun. unfold sync_stream. by rewrite bind_lift, Hname. }
  destruct (resolve_modified_since cfg (st_state s) table_name) as [w | e] eqn:Hw;
    [destruct (get_input_files_for_table cfg ts w) as [files | e] eqn:Hfiles |].
  - rewrite (sync_stream_unfold _ _ _ _ table_name w files) in Hrun by done.
    destruct (sync_files _ _ _ _ _ _ _) as [[[m | e] s2] t2] eqn:Hloop; [| done].
    injection Hrun as <- <- <-.
    destruct (sync_files_records_inv _ _ _ _ _ _ _ _ _ _ Hname Hloop) as [_ Hcount].
    split.
    + change (records (_ :: _ :: _ :: ?t)) with (records t).
      rewrite records_app, app_nil_r. by rewrite (Hcount m eq_refl).
    + exists table_name. split; [done |].
      rewrite !last_cons, last_snoc. done.
  - destruct (sync_stream_early cfg ts strm s table_name _ _ _ Hname Hrun) as (_ & _ & ?);
      [| done]. intros w' Hw'. rewrite Hw in Hw'. injection Hw' as <-. by rewrite Hfiles.
  - destruct (sync_stream_early cfg ts strm s table_name _ _ _ Hname Hrun) as (_ & _ & ?);
      [| done]. intros w' Hw'. by rewrite Hw in Hw'.
Qed.

(** Every record a run writes, also a run that fails, is written for the
    table's name with the suffix of the config. *)
Theorem sync_stream_record_names cfg ts strm s table_name r s' t :
  table_name_of cfg ts = Ok table_name →
  sync_stream cfg ts strm s = (r, s', t) →
  Forall (λ p, p.1 = table_name) (records t).
Proof.
  intros Hname Hrun.
  destruct (resolve_modified_since cfg (st_state s) table_name) as [w | e] eqn:Hw;
    [destruct (get_input_files_for_table cfg ts w) as [files | e] eqn:Hfiles |].
  - rewrite (sync_stream_unfold _ _ _ _ table_name w files) in Hrun by done.
    destruct (sync_files _ _ _ _ _ _ _) as [[r2 s2] t2] eqn:Hloop.
    destruct (sync_files_records_inv _ _ _ _ _ _ _ _ _ _ Hname Hloop) as [Hall _].
    destruct r2; injection Hrun as <- <- <-;
      change (records (_ :: _ :: _ :: ?t)) with (records t); [| done].
    by rewrite records_app, app_nil_r.
  - revert Hrun. unfold sync_stream, info.
    rewrite bind_lift, Hname. rewrite bind_run. cbn [get_state].
    rewrite bind_lift, Hw. rewrite !bind_emit. rewrite bind_run, list_files_run, Hfiles.
    intros [= <- <- <-]. constructor.
  - revert Hrun. unfold sync_stream, info.
    rewrite bind_lift, Hname. rewrite bind_run. cbn [get_state].
    rewrite bind_lift, Hw. intros [= <- <- <-]. constructor.
Qed.

Lemma get_bookmark_write_other (st : state) table_name name val table name' :
  (table, name') ≠ (table_name, name) →
  get_bookmark (write_bookmark st table_name name val) table name'
  = get_bookmark st table name'.
Proof.
  intros Hne. unfold get_bookmark, write_bookmark.
  destruct (decide (table = table_name)) as [-> | Htable].
  - rewrite lookup_insert_eq. simpl. rewrite lookup_insert_ne by congruence.
    destruct (st !! table_name); [done |]. simpl. apply lookup_empty.
  - by rewrite lookup_insert_ne.
Qed.

(** A run writes one bookmark only: every other bookmark of the table and
    every bookmark of another table is after the run what it was before. *)
Theorem sync_stream_other_bookmarks cfg ts strm s table_name r s' t table name :
  table_name_of cfg ts = Ok table_name →
  sync_stream cfg ts strm s = (r, s', t) →
  (table, name) ≠ (table_name, "modified_since") →
  get_bookmark (st_state s') table name = get_bookmark (st_state s) table name ∧
  Forall (λ st, get_bookmark st table name = get_bookmark (st_state s) table name)
         (persisted t).
Proof.
  intros Hname Hrun Hne.
  destruct (resolve_modified_since cfg (st_state s) table_name) as [w | e] eqn:Hw;
    [destruct (get_input_files_for_table cfg ts w) as [files | e] eqn:Hfiles |].
  - destruct (sync_stream_run cfg ts strm s table_name w files Hname Hw Hfiles)
      as (s1 & t1 & Hrun1 & Ht1 & Hs1).
    rewrite Hrun in Hrun1. injection Hrun1 as -> -> ->. split.
    + rewrite Hs1. unfold state_after. destruct (last _); [| done].
      by apply get_bookmark_write_other.
    + change (persisted (_ :: _ :: _ :: t1)) with (persisted t1).
      rewrite <- persisted_progress, Ht1, persisted_file_progress.
      apply Forall_forall. intros st Hst.
      apply list_elem_of_In, in_map_iff in Hst as (f & <- & _).
      by apply get_bookmark_write_other.
  - destruct (sync_stream_early cfg ts strm s table_name r s' t Hname Hrun)
      as (-> & Ht & _).
    { intros w' Hw'. rewrite Hw in Hw'. injection Hw' as <-. by rewrite Hfiles. }
    split; [done |]. rewrite <- persisted_progress, Ht. constructor.
  - destruct (sync_stream_early cfg ts strm s table_name r s' t Hname Hrun)
      as (-> & Ht & _); [intros w' Hw'; by rewrite Hw in Hw' |].
    split; [done |]. rewrite <- persisted_progress, Ht. constructor.
Qed.

Lemma watermark_text_none cfg (st : state) table_name :
  watermark_text cfg st table_name = None →
  resolve_modified_since cfg st table_name = Raise (KeyError "start_date").
Proof.
  unfold watermark_text, resolve_modified_since, bookmark_or.
  destruct (get_bookmark st table_name "modified_since") as [val |].
  - destruct (decide (val = "")) as [-> | Hval]; [| done]. simpl. by intros ->.
  - by intros ->.
Qed.

(** Without a bookmark to start from (none, or an empty one) and without a
    start date in the config, the orchestrator raises [KeyError] before it
    logs or lists anything. *)
Theorem sync_stream_missing_start_date cfg ts strm s table_name :
  table_name_of cfg ts = Ok table_name →
  watermark_text cfg (st_state s) table_name = None →
  sync_stream cfg ts strm s = (Raise (KeyError "start_date"), s, []).
Proof.
  intros Hname Htext. unfold sync_stream.
  rewrite bind_lift, Hname. rewrite bind_run. cbn [get_state].
  by rewrite bind_lift, watermark_text_none.
Qed.

(** When the watermark does not parse or the listing fails, that error goes
    up with the store as it was: no file is opened, no record and no state is
    written. *)
Theorem sync_stream_setup_failure cfg ts strm s table_name e :
  table_name_of cfg ts = Ok table_name →
  discovered cfg ts (st_state s) table_name = Raise e →
  ∃ t, sync_stream cfg ts strm s = (Raise e, s, t) ∧
       invoked t = [] ∧ records t = [] ∧ persisted t = [].
Proof.
  intros Hname. unfold discovered, sync_stream, info.
  rewrite bind_lift, Hname. rewrite bind_run. cbn [get_state]. rewrite bind_lift.
  destruct (resolve_modified_since cfg (st_state s) table_name) as [w | e'].
  - cbn [mbind result_bind Result.bind]. intros Hfiles.
    rewrite !bind_emit. rewrite bind_run, list_files_run, Hfiles. by eexists.
  - intros [= ->]. by eexists.
Qed.

(** *** Streams left open *)

Lemma file_outcome_opened cfg ts strm s3_path k :
  file_outcome cfg ts strm s3_path = Ok k →
  ∃ h, get_file_handle cfg s3_path = Ok h ∧ opened_by cfg ts s3_path = [h].
Proof.
  unfold file_outcome, opened_by.
  destruct (cfg_bucket cfg); [| done]. simpl.
  destruct (table_name_of cfg ts); [| done]. simpl.
  destruct (get_file_handle cfg s3_path) as [h |]; [| done]. by exists h.
Qed.

Lemma rev_opened_by cfg ts s3_path :
  rev (opened_by cfg ts s3_path) = opened_by cfg ts s3_path.
Proof.
  unfold opened_by. destruct (cfg_bucket cfg); [| done].
  destruct (table_name_of cfg ts); [| done]. by destruct (get_file_handle cfg s3_path).
Qed.

Lemma sync_files_open cfg ts strm table_name files n s r s' t :
  sync_files cfg ts strm table_name files n s = (r, s', t) →
  st_open s'
  = rev (flat_map (λ f, opened_by cfg ts (key f)) (attempted cfg ts strm files))
    ++ st_open s.
Proof.
  revert n s r s' t. induction files as [| f files IH]; intros n s r s' t.
  - by intros [= <- <- <-].
  - rewrite sync_files_cons.
    destruct (sync_table_file_run cfg (key f) ts strm s) as (s1 & t1 & -> & _ & Hopen & _).
    unfold attempted. simpl.
    destruct (file_outcome cfg ts strm (key f)) as [k | e] eqn:Hf; simpl.
    + destruct (sync_files _ _ _ _ _ _ _) as [[r2 s2] t2] eqn:Hrest.
      intros [= <- <- <-]. rewrite (IH _ _ _ _ _ Hrest). cbn [set_state st_open].
      rewrite Hopen. fold (attempted cfg ts strm files).
      rewrite rev_app_distr, <- app_assoc. f_equal.
      destruct (file_outcome_opened _ _ _ _ _ Hf) as (h & _ & ->). done.
    + intros [= <- <- <-]. by rewrite Hopen, app_nil_r, rev_opened_by.
Qed.

Lemma completed_handles cfg ts strm files :
  ∃ handles,
    Forall2 (λ f h, get_file_handle cfg (key f) = Ok h) (completed cfg ts strm files) handles ∧
    flat_map (λ f, opened_by cfg ts (key f)) (completed cfg ts strm files) = handles.
Proof.
  induction files as [| f files (handles & Hall & Hflat)]; simpl; [by exists [] |].
  destruct (file_outcome cfg ts strm (key f)) as [k | e] eqn:Hf; simpl; [| by exists []].
  destruct (file_outcome_opened _ _ _ _ _ Hf) as (h & Hh & Hopen).
  exists (h :: handles). split; [by constructor |]. by rewrite Hopen, Hflat.
Qed.

(** The orchestrator closes nothing either: the streams that were open stay
    open, and a run that returns leaves one more open stream for every file,
    the last file's first. *)
Theorem sync_stream_open_streams cfg ts strm s table_name modified_since files r s' t :
  table_name_of cfg ts = Ok table_name →
  resolve_modified_since cfg (st_state s) table_name = Ok modified_since →
  get_input_files_for_table cfg ts modified_since = Ok files →
  sync_stream cfg ts strm s = (r, s', t) →
  st_open s `suffix_of` st_open s' ∧
  (Result.is_ok r = true →
   ∃ handles,
     Forall2 (λ f h, get_file_handle cfg (key f) = Ok h)
             (sorted last_modified files) handles ∧
     st_open s' = rev handles ++ st_open s).
Proof.
  intros Hname Hw Hfiles Hrun.
  rewrite (sync_stream_unfold _ _ _ _ table_name modified_since files) in Hrun by done.
  destruct (sync_files _ _ _ _ _ _ _) as [[r2 s2] t2] eqn:Hloop.
  pose proof (sync_files_open _ _ _ _ _ _ _ _ _ _ Hloop) as Hopen.
  destruct (sync_files_run cfg ts strm table_name (sorted last_modified files) 0 s)
    as (s3 & t3 & Hloop3 & _).
  rewrite Hloop in Hloop3. injection Hloop3 as -> _ _.
  assert (s' = s2 ∧ Result.is_ok r = Result.is_ok (files_outcome cfg ts strm
            (sorted last_modified files) 0)) as [-> Hr].
  { destruct (files_outcome _ _ _ _ _); by injection Hrun as <- <- <-. }
  split; [rewrite Hopen; by eexists |].
  rewrite Hr. intros Hok. apply completed_all in Hok as [Hdone Hfailed].
  unfold attempted in Hopen. rewrite Hfailed, app_nil_r in Hopen.
  destruct (completed_handles cfg ts strm (sorted last_modified files))
    as (handles & Hall & Hflat).
  rewrite Hdone in Hall, Hflat, Hopen. exists handles. by rewrite Hopen, Hflat.
Qed.

(** *** From one run to the next *)

(** The next run starts where this one got to: its watermark is parsed from
    the ISO form of the modification time of the last file completed,
    whatever the start date, and is the watermark of this run when no file
    was completed. *)
Theorem sync_stream_next_watermark cfg ts strm s table_name modified_since files r s' t :
  table_name_of cfg ts = Ok table_name →
  resolve_modified_since cfg (st_state s) table_name = Ok modified_since →
  get_input_files_for_table cfg ts modified_since = Ok files →
  Forall (λ f, isoformat (last_modified f) ≠ "") files →
  sync_stream cfg ts strm s = (r, s', t) →
  resolve_modified_since cfg (st_state s') table_name
  = match last (completed cfg ts strm (sorted last_modified files)) with
    | Some f => strptime_with_tz (isoformat (last_modified f))
    | None => Ok modified_since
    end.
Proof.
  intros Hname Hw Hfiles Hiso Hrun.
  destruct (sync_stream_run cfg ts strm s table_name modified_since files Hname Hw Hfiles)
    as (s1 & t1 & Hrun1 & _ & Hs1).
  rewrite Hrun in Hrun1. injection Hrun1 as -> -> ->.
  rewrite Hs1. unfold state_after.
  destruct (last _) as [f |] eqn:Hlast; [| done].
  assert (f ∈ files) as Hf.
  { apply last_Some_elem_of in Hlast.
    destruct (completed_prefix cfg ts strm (sorted last_modified files)) as [rest Hrest].
    assert (f ∈ sorted last_modified files) as Hin
      by (rewrite Hrest; apply elem_of_app; by left).
    by rewrite (sorted_perm last_modified files) in Hin. }
  rewrite Forall_forall in Hiso. specialize (Hiso f Hf).
  unfold resolve_modified_since, bookmarked. rewrite get_bookmark_write.
  unfold bookmark_or. apply String.eqb_neq in Hiso. by rewrite Hiso.
Qed.

Lemma sync_stream_nothing cfg ts strm s table_name modified_since :
  table_name_of cfg ts = Ok table_name →
  resolve_modified_since cfg (st_state s) table_name = Ok modified_since →
  get_input_files_for_table cfg ts modified_since = Ok [] →
  sync_stream cfg ts strm s
  = (Ok 0%nat, s,
     [LogInfo (SyncingTable table_name); LogInfo (GettingFiles modified_since);
      ListFiles modified_since; LogInfo (WroteRecords 0 table_name)]).
Proof.
  intros Hname Hw Hfiles.
  by rewrite (sync_stream_unfold _ _ _ _ table_name modified_since []).
Qed.

(** In an ascending list the last element is not below any other. *)
Lemma last_not_below {A : Type} (sort_key : A → datetime) (l : list A) (g : A) :
  StronglySorted (key_le sort_key) l → last l = Some g →
  Forall (λ x, key_le sort_key x g) l.
Proof.
  induction 1 as [| x l Hl IH Hx]; [done |]. intros Hlast.
  destruct l as [| y l'].
  - injection Hlast as <-. constructor; [unfold key_le, dt_le; lia | constructor].
  - rewrite last_cons_cons in Hlast. constructor; [| by apply IH].
    rewrite Forall_forall in Hx. apply Hx. by apply last_Some_elem_of.
Qed.

Lemma filter_none {A : Type} (p : A → bool) (l : list A) :
  Forall (λ x, p x = false) l → List.filter p l = [].
Proof. induction 1 as [| x l Hx _ IH]; [done |]. simpl. by rewrite Hx. Qed.

(** Where a run got to, when discovery lists the files of [listing] modified
    strictly after the watermark and ISO forms parse back: the next run
    starts from the last completed file [g] and finds the files of [listing]
    modified strictly after [g]. *)
Lemma next_discovery cfg ts strm s table_name modified_since listing r s' t g :
  table_name_of cfg ts = Ok table_name →
  (∀ w, get_input_files_for_table cfg ts w
        = Ok (List.filter (λ f, dt_ltb w (last_modified f)) listing)) →
  Forall (λ f, strptime_with_tz (isoformat (last_modified f)) = Ok (last_modified f) ∧
               isoformat (last_modified f) ≠ "") listing →
  resolve_modified_since cfg (st_state s) table_name = Ok modified_since →
  sync_stream cfg ts strm s = (r, s', t) →
  last (completed cfg ts strm
          (sorted last_modified
             (List.filter (λ f, dt_ltb modified_since (last_modified f)) listing)))
  = Some g →
  resolve_modified_since cfg (st_state s') table_name = Ok (last_modified g) ∧
  g ∈ listing ∧ dt_lt modified_since (last_modified g).
Proof.
  intros Hname Hlist Hround Hw Hrun Hlast.
  set (files := List.filter (λ f, dt_ltb modified_since (last_modified f)) listing) in *.
  destruct (sync_stream_run cfg ts strm s table_name modified_since files Hname Hw
              (Hlist modified_since)) as (s1 & t1 & Hrun1 & _ & Hs1).
  rewrite Hrun in Hrun1. injection Hrun1 as -> -> ->.
  assert (g ∈ files) as Hg.
  { apply last_Some_elem_of in Hlast.
    destruct (completed_prefix cfg ts strm (sorted last_modified files)) as [rest Hrest].
    assert (g ∈ sorted last_modified files) as Hin
      by (rewrite Hrest; apply elem_of_app; by left).
    by rewrite (sorted_perm last_modified files) in Hin. }
  apply list_elem_of_In, filter_In in Hg as [Hg Hafter]. apply list_elem_of_In in Hg.
  rewrite Forall_forall in Hround. destruct (Hround g Hg) as [Hparse Hiso].
  split; [| split; [done |]].
  - rewrite Hs1. unfold state_after. rewrite Hlast.
    unfold resolve_modified_since, bookmarked. rewrite get_bookmark_write.
    unfold bookmark_or. apply String.eqb_neq in Hiso. by rewrite Hiso.
  - unfold dt_ltb in Hafter. unfold dt_lt. lia.
Qed.

(** Resuming: after a run that completed the files up to [g], the next run
    invokes the file sync unit only on files modified strictly after [g].
    No completed file is processed again; a file that shares the
    modification time of [g] and failed, or was not reached, is not
    processed again either. *)
Theorem sync_stream_resume cfg ts strm s table_name modified_since listing r s' t g
    r2 s2 t2 :
  table_name_of cfg ts = Ok table_name →
  (∀ w, get_input_files_for_table cfg ts w
        = Ok (List.filter (λ f, dt_ltb w (last_modified f)) listing)) →
  Forall (λ f, strptime_with_tz (isoformat (last_modified f)) = Ok (last_modified f) ∧
               isoformat (last_modified f) ≠ "") listing →
  resolve_modified_since cfg (st_state s) table_name = Ok modified_since →
  sync_stream cfg ts strm s = (r, s', t) →
  last (completed cfg ts strm
          (sorted last_modified
             (List.filter (λ f, dt_ltb modified_since (last_modified f)) listing)))
  = Some g →
  sync_stream cfg ts strm s' = (r2, s2, t2) →
  ∃ again,
    invoked t2 = map key again ∧
    Forall (λ f, f ∈ listing ∧ dt_lt (last_modified g) (last_modified f)) again.
Proof.
  intros Hname Hlist Hround Hw Hrun Hlast Hrun2.
  destruct (next_discovery cfg ts strm s table_name modified_since listing r s' t g)
    as (Hw2 & _ & _); try done.
  set (files2 := List.filter (λ f, dt_ltb (last_modified g) (last_modified f)) listing).
  destruct (sync_stream_run cfg ts strm s' table_name (last_modified g) files2 Hname Hw2
              (Hlist _)) as (s3 & t3 & Hrun3 & Ht3 & _).
  rewrite Hrun2 in Hrun3. injection Hrun3 as -> -> ->.
  exists (attempted cfg ts strm (sorted last_modified files2)). split.
  - change (invoked (_ :: _ :: _ :: t3)) with (invoked t3).
    by rewrite <- invoked_progress, Ht3, invoked_file_progress.
  - apply Forall_forall. intros f Hf.
    destruct (attempted_prefix cfg ts strm (sorted last_modified files2)) as [rest Hrest].
    unfold attempted in Hf.
    assert (f ∈ sorted last_modified files2) as Hin
      by (rewrite Hrest; apply elem_of_app; by left).
    rewrite (sorted_perm last_modified files2) in Hin.
    apply list_elem_of_In, filter_In in Hin as [Hin Hafter].
    split; [by apply list_elem_of_In |]. unfold dt_ltb in Hafter. unfold dt_lt. lia.
Qed.

(** Running again: after a run that returned, a second run over the same
    listing finds nothing to do. It returns 0, writes no record and no state,
    and leaves the store as the first run left it. *)
Theorem sync_stream_rerun cfg ts strm s table_name modified_since listing n s' t :
  table_name_of cfg ts = Ok table_name →
  (∀ w, get_input_files_for_table cfg ts w
        = Ok (List.filter (λ f, dt_ltb w (last_modified f)) listing)) →
  Forall (λ f, strptime_with_tz (isoformat (last_modified f)) = Ok (last_modified f) ∧
               isoformat (last_modified f) ≠ "") listing →
  resolve_modified_since cfg (st_state s) table_name = Ok modified_since →
  sync_stream cfg ts strm s = (Ok n, s', t) →
  ∃ t2, sync_stream cfg ts strm s' = (Ok 0%nat, s', t2) ∧
        invoked t2 = [] ∧ records t2 = [] ∧ persisted t2 = [].
Proof.
  intros Hname Hlist Hround Hw Hrun.
  set (files := List.filter (λ f, dt_ltb modified_since (last_modified f)) listing).
  destruct (sync_stream_run cfg ts strm s table_name modified_since files Hname Hw
              (Hlist modified_since)) as (s1 & t1 & Hrun1 & _ & Hs1).
  rewrite Hrun in Hrun1. injection Hrun1 as Hout -> ->.
  assert (Result.is_ok (files_outcome cfg ts strm (sorted last_modified files) 0) = true)
    as Hok by (by rewrite <- Hout).
  apply completed_all in Hok as [Hdone _].
  destruct (last (completed cfg ts strm (sorted last_modified files))) as [g |] eqn:Hlast.
  - destruct (next_discovery cfg ts strm s table_name modified_since listing _ _ _ g
                Hname Hlist Hround Hw Hrun Hlast) as (Hw2 & Hg & Hafter).
    assert (List.filter (λ f, dt_ltb (last_modified g) (last_modified f)) listing = [])
      as Hnone.
    { apply filter_none, Forall_forall. intros h Hh.
      destruct (dt_ltb (last_modified g) (last_modified h)) eqn:Hlt; [| done].
      exfalso. unfold dt_ltb in Hlt. apply Z.ltb_lt in Hlt.
      assert (h ∈ sorted last_modified files) as Hin.
      { rewrite (sorted_perm last_modified files). apply list_elem_of_In, filter_In.
        split; [by apply list_elem_of_In |]. unfold dt_ltb. apply Z.ltb_lt.
        unfold dt_lt in Hafter. lia. }
      rewrite Hdone in Hlast.
      pose proof (last_not_below last_modified _ g
                    (sorted_ascending last_modified files) Hlast) as Hmax.
      rewrite Forall_forall in Hmax. specialize (Hmax h Hin).
      unfold key_le, dt_le in Hmax. lia. }
    eexists. split.
    { apply (sync_stream_nothing _ _ _ _ table_name (last_modified g)); [done | done |].
      by rewrite Hlist, Hnone. }
    done.
  - rewrite Hdone in Hlast. apply last_None in Hlast.
    assert (files = []) as Hfiles.
    { apply Permutation_nil. by rewrite <- (sorted_perm last_modified files), Hlast. }
    assert (s1 = s) as ->.
    { rewrite (sync_stream_nothing _ _ _ _ table_name modified_since) in Hrun;
        [by injection Hrun | done | done |]. rewrite Hlist. by fold files; rewrite Hfiles. }
    eexists. split.
    { apply (sync_stream_nothing _ _ _ _ table_name modified_since); [done | done |].
      rewrite Hlist. by fold files; rewrite Hfiles. }
    done.
Qed.

End StreamMore.

(** ** The further properties at work in the small world *)

Lemma sync_table_file_times_witness :
  ∃ s' t,
    sync_table_file (H := Demo.env) (Demo.cfg true) "exports/jan.csv" Demo.orders Demo.people
      (Demo.fresh ∅)
    = (Ok (length Demo.jan_rows), s', t) ∧
    written t
    = stamped (H := Demo.env) "orders" 0
        [VDict [("name", VStr "ann"); ("age", VInt 5)];
         VDict [("name", VStr "bob"); ("age", VInt 7)]] ∧
    st_clock s' = (length Demo.jan_rows + 0)%nat.
Proof.
  apply (@sync_table_file_times Demo.env (Demo.cfg true) "exports/jan.csv" Demo.orders
           Demo.people (Demo.fresh ∅) "bucket" "orders"
           {| handle_path := "exports/jan.csv"; raw_stream := Demo.jan_csv |}
           Demo.jan_rows); reflexivity.
Defined.

(** With the flag off the February file fails at its second row: the record
    of the first row is out. *)
Lemma sync_table_file_partial_witness :
  ∃ s' t,
    sync_table_file (H := Demo.env) (Demo.cfg false) "exports/feb.csv" Demo.orders
      Demo.people (Demo.fresh ∅)
    = (Raise (SchemaError "does not match the schema"), s', t) ∧
    written t
    = stamped (H := Demo.env) "orders" 0 [VDict [("name", VStr "cy"); ("age", VInt 1)]] ∧
    length (written t) = 1%nat.
Proof.
  apply (@sync_table_file_partial Demo.env (Demo.cfg false) "exports/feb.csv" Demo.orders
           Demo.people (Demo.fresh ∅) "bucket" "orders"
           {| handle_path := "exports/feb.csv"; raw_stream := Demo.feb_csv |}
           [Demo.person "cy" "1"] [VDict [("name", VStr "cy"); ("age", VInt 1)]]
           (rows_then [Demo.person "dee" ""; Demo.person "eve" "3"] IterStop));
    reflexivity.
Defined.

Lemma sync_table_file_field_size_limit_witness :
  st_field_size_limit
    (sync_table_file (H := Demo.env) (Demo.cfg false) "exports/feb.csv" Demo.orders
       Demo.people (Demo.fresh ∅)).1.2
  = sys_maxsize.
Proof.
  eapply (@sync_table_file_field_size_limit Demo.env (Demo.cfg false) "exports/feb.csv"
            Demo.orders Demo.people (Demo.fresh ∅) "bucket" "orders").
  - reflexivity.
  - reflexivity.
  - reflexivity.
  - vm_compute. reflexivity.
Defined.

Lemma sync_table_file_not_opened_witness :
  ∃ e t,
    sync_table_file (H := Demo.env) (Demo.cfg true) "exports/mar.csv" Demo.orders
      Demo.people (Demo.fresh ∅)
    = (Raise e, Demo.fresh ∅, t) ∧ records t = [].
Proof.
  apply (@sync_table_file_not_opened Demo.env (Demo.cfg true) "exports/mar.csv"
           Demo.orders Demo.people (Demo.fresh ∅)).
  reflexivity.
Defined.

Lemma sync_table_file_missing_schema_witness :
  records (sync_table_file (H := Demo.env) (Demo.cfg true) "exports/jan.csv" Demo.orders
             Cases.shapeless (Demo.fresh ∅)).2 = [] ∧
  (sync_table_file (H := Demo.env) (Demo.cfg true) "exports/jan.csv" Demo.orders
     Cases.shapeless (Demo.fresh ∅)).1.1
  = Raise (KeyError "schema").
Proof.
  eapply (@sync_table_file_missing_schema Demo.env (Demo.cfg true) "exports/jan.csv"
            Demo.orders Cases.shapeless (Demo.fresh ∅) "bucket" "orders"
            {| handle_path := "exports/jan.csv"; raw_stream := Demo.jan_csv |}).
  - reflexivity.
  - reflexivity.
  - reflexivity.
  - reflexivity.
  - vm_compute. reflexivity.
Defined.

Lemma sync_stream_count_witness :
  length (records Demo.nightly.2) = 5%nat ∧
  ∃ table_name,
    table_name_of (Demo.cfg true) Demo.orders = Ok table_name ∧
    last Demo.nightly.2 = Some (LogInfo (WroteRecords 5 table_name)).
Proof.
  apply (@sync_stream_count Demo.env (Demo.cfg true) Demo.orders Demo.people (Demo.fresh ∅)
           5%nat Demo.nightly.1.2 Demo.nightly.2).
  vm_compute. reflexivity.
Defined.

Lemma sync_stream_record_names_witness :
  Forall (λ p, p.1 = "orders_v2")
    (records (@sync_stream Demo.env Cases.suffixed Demo.orders Demo.people
                (Demo.fresh ∅)).2).
Proof.
  eapply (@sync_stream_record_names Demo.env Cases.suffixed Demo.orders Demo.people
            (Demo.fresh ∅) "orders_v2").
  - reflexivity.
  - vm_compute. reflexivity.
Defined.

Lemma sync_stream_other_bookmarks_witness :
  get_bookmark
    (st_state (@sync_stream Demo.env (Demo.cfg true) Demo.orders Demo.people
                 (Demo.fresh Cases.crowded)).1.2) "refunds" "modified_since"
  = get_bookmark (st_state (Demo.fresh Cases.crowded)) "refunds" "modified_since" ∧
  Forall (λ st, get_bookmark st "refunds" "modified_since"
                = get_bookmark (st_state (Demo.fresh Cases.crowded))
                    "refunds" "modified_since")
    (persisted (@sync_stream Demo.env (Demo.cfg true) Demo.orders Demo.people
                  (Demo.fresh Cases.crowded)).2).
Proof.
  eapply (@sync_stream_other_bookmarks Demo.env (Demo.cfg true) Demo.orders Demo.people
            (Demo.fresh Cases.crowded) "orders").
  - reflexivity.
  - vm_compute. reflexivity.
  - discriminate.
Defined.

Lemma sync_stream_missing_start_date_witness :
  @sync_stream Demo.env Cases.undated Demo.orders Demo.people (Demo.fresh (Demo.resumed ""))
  = (Raise (KeyError "start_date"), Demo.fresh (Demo.resumed ""), []).
Proof.
  apply (@sync_stream_missing_start_date Demo.env Cases.undated Demo.orders Demo.people
           (Demo.fresh (Demo.resumed "")) "orders").
  - reflexivity.
  - vm_compute. reflexivity.
Defined.

Lemma sync_stream_setup_failure_witness :
  ∃ t,
    @sync_stream Demo.env (Demo.cfg true) Demo.orders Demo.people
      (Demo.fresh (Demo.resumed "yesterday"))
    = (Raise (ValueError "Unknown string format"), Demo.fresh (Demo.resumed "yesterday"), t) ∧
    invoked t = [] ∧ records t = [] ∧ persisted t = [].
Proof.
  apply (@sync_stream_setup_failure Demo.env (Demo.cfg true) Demo.orders Demo.people
           (Demo.fresh (Demo.resumed "yesterday")) "orders").
  - reflexivity.
  - vm_compute. reflexivity.
Defined.

Lemma sync_stream_open_streams_witness :
  st_open (Demo.fresh ∅) `suffix_of` st_open Demo.nightly.1.2 ∧
  (Result.is_ok Demo.nightly.1.1 = true →
   ∃ handles,
     Forall2 (λ f h, Demo.fetch (Demo.cfg true) (key f) = Ok h)
             (sorted last_modified [Demo.feb_file; Demo.jan_file]) handles ∧
     st_open Demo.nightly.1.2 = rev handles ++ st_open (Demo.fresh ∅)).
Proof.
  apply (@sync_stream_open_streams Demo.env (Demo.cfg true) Demo.orders Demo.people
           (Demo.fresh ∅) "orders" Demo.jan01 [Demo.feb_file; Demo.jan_file]
           Demo.nightly.1.1 Demo.nightly.1.2 Demo.nightly.2).
  - reflexivity.
  - reflexivity.
  - reflexivity.
  - vm_compute. reflexivity.
Defined.

Lemma sync_stream_next_watermark_witness :
  resolve_modified_since (H := Demo.env) (Demo.cfg false) (st_state Demo.unnormalized.1.2)
    "orders"
  = Ok Demo.jan15.
Proof.
  apply (@sync_stream_next_watermark Demo.env (Demo.cfg false) Demo.orders Demo.people
           (Demo.fresh ∅) "orders" Demo.jan01 [Demo.feb_file; Demo.jan_file]
           Demo.unnormalized.1.1 Demo.unnormalized.1.2 Demo.unnormalized.2).
  - reflexivity.
  - reflexivity.
  - reflexivity.
  - repeat constructor; discriminate.
  - vm_compute. reflexivity.
Defined.

(** Two files of one time: the first completes, the second fails, and the
    run after that does not come back to the second. *)
Lemma sync_stream_resume_witness :
  ∃ again,
    invoked Cases.second_run.2 = map key again ∧
    Forall (λ f, f ∈ [Demo.tie_a; Demo.tie_b] ∧
                 dt_lt (last_modified Demo.tie_a) (last_modified f)) again.
Proof.
  apply (@sync_stream_resume Cases.env (Demo.cfg false) Demo.ties Demo.people
           (Demo.fresh ∅) "ties" Demo.jan01 [Demo.tie_a; Demo.tie_b]
           Cases.first_run.1.1 Cases.first_run.1.2 Cases.first_run.2 Demo.tie_a
           Cases.second_run.1.1 Cases.second_run.1.2 Cases.second_run.2).
  - reflexivity.
  - intros w. reflexivity.
  - repeat constructor; discriminate.
  - reflexivity.
  - vm_compute. reflexivity.
  - reflexivity.
  - vm_compute. reflexivity.
Defined.

Example second_run_skips_the_failed_file :
  invoked Cases.first_run.2 = ["ties/a.csv"; "ties/b.csv"] ∧
  Cases.first_run.1.1 = Raise (SchemaError "does not match the schema") ∧
  Cases.second_run.1.1 = Ok 0%nat ∧
  invoked Cases.second_run.2 = [].
Proof. by vm_compute. Qed.

Lemma sync_stream_rerun_witness :
  ∃ t2,
    Cases.nightly_again = (Ok 0%nat, Demo.nightly.1.2, t2) ∧
    invoked t2 = [] ∧ records t2 = [] ∧ persisted t2 = [].
Proof.
  apply (@sync_stream_rerun Demo.env (Demo.cfg true) Demo.orders Demo.people
           (Demo.fresh ∅) "orders" Demo.jan01 [Demo.feb_file; Demo.jan_file]
           5%nat Demo.nightly.1.2 Demo.nightly.2).
  - reflexivity.
  - intros w. reflexivity.
  - repeat constructor; discriminate.
  - reflexivity.
  - vm_compute. reflexivity.
Defined.
